(** * x-arraysearch: a shallow embedding of [src/index.ts]

    The library filters an array of JavaScript values: an item is kept when
    a matcher accepts one of the values found under it, either at a list of
    dotted paths or anywhere within a depth budget.

    Data may be cyclic ([x.self = x]) and strict equality on objects is
    identity, so objects and arrays live in a store and values name them by
    location.  The store is only read during a search.  The path cache is
    the one piece of mutable state; it is threaded explicitly.  Code inside
    [try] is written in an exception monad and closed by [try_catch].

    Scope of the model: numbers are integers; objects are plain records of
    own enumerable string-keyed properties; lower-casing acts on the ASCII
    letters; [RegExp] is an interface, with a fragment of the pattern
    language implemented for the documented examples. *)

From stdpp Require Import gmap strings list pretty.
From Stdlib Require Import ZArith Lia Ascii.

Local Open Scope string_scope.
Local Open Scope Z_scope.

(** ** Values and the store *)

Definition loc := nat.

(** Numbers are restricted to integers; their textual form is the decimal
    numeral, which is what [String(n)] gives below 1e21. *)
Inductive value :=
| VUndefined
| VNull
| VBool (b : bool)
| VNumber (n : Z)
| VString (s : string)
| VRef (l : loc).
Arguments VRef l%_nat.

(** An object is the list of its own enumerable string-keyed properties in
    enumeration order; an array is the list of its elements (no holes).  A
    location the store does not map reads as an object without properties. *)
Inductive cell :=
| Arr (elems : list value)
| Obj (props : list (string * value)).

Abbreviation heap := (gmap loc cell).

#[global] Instance value_eq_dec : EqDecision value.
Proof. solve_decision. Defined.

(** [a === b] *)
Definition strict_eq (a b : value) : bool := bool_decide (a = b).

(** ** Exceptions *)

Inductive exn := TypeError | SyntaxError.

Inductive outcome (A : Type) :=
| Return (a : A)
| Throw (e : exn).
Arguments Return {A} a.
Arguments Throw {A} e.

#[global] Instance outcome_ret : MRet outcome := fun A a => Return a.
#[global] Instance outcome_bind : MBind outcome := fun A B k m =>
  match m with
  | Return a => k a
  | Throw e => Throw e
  end.

(** [try { body } catch { handler }] *)
Definition try_catch {A} (body : outcome A) (handler : A) : A :=
  match body with
  | Return a => a
  | Throw _ => handler
  end.

(** ** Strings *)

(** [s.split(sep)] for a one-character separator: never empty. *)
Fixpoint split (sep : ascii) (s : string) : list string :=
  match s with
  | EmptyString => [EmptyString]
  | String c rest =>
      if Ascii.eqb c sep then EmptyString :: split sep rest
      else match split sep rest with
           | seg :: segs => String c seg :: segs
           | [] => [String c EmptyString]
           end
  end.

(** [s.endsWith(suffix)] *)
Definition endsWith (s suffix : string) : bool :=
  let n := String.length s in
  let m := String.length suffix in
  (m <=? n)%nat && String.eqb (String.substring (n - m) m s) suffix.

(** [s.slice(0, -2)] *)
Definition slice_0_neg2 (s : string) : string :=
  String.substring 0 (String.length s - 2) s.

(** [hay.includes(needle)] *)
Fixpoint includes (hay needle : string) : bool :=
  String.prefix needle hay ||
  match hay with
  | EmptyString => false
  | String _ rest => includes rest needle
  end.

(** [s.toLowerCase()], on the ASCII letters. *)
Definition lower_ascii (c : ascii) : ascii :=
  let n := nat_of_ascii c in
  if (65 <=? n)%nat && (n <=? 90)%nat then ascii_of_nat (n + 32) else c.

Fixpoint toLowerCase (s : string) : string :=
  match s with
  | EmptyString => EmptyString
  | String c rest => String (lower_ascii c) (toLowerCase rest)
  end.

Definition is_space (c : ascii) : bool :=
  let n := nat_of_ascii c in
  (n =? 32)%nat || ((9 <=? n)%nat && (n <=? 13)%nat).

Fixpoint trim_start (s : string) : string :=
  match s with
  | String c rest => if is_space c then trim_start rest else s
  | EmptyString => EmptyString
  end.

(** [s.trim()] *)
Definition trim (s : string) : string :=
  String.rev (trim_start (String.rev (trim_start s))).

Fixpoint join (sep : string) (l : list string) : string :=
  match l with
  | [] => ""
  | [s] => s
  | s :: l' => s +:+ sep +:+ join sep l'
  end.

(** ** Reading the store *)

Section Store.
Context (h : heap).

(** [Array.isArray(v)], with the elements. *)
Definition array_at (v : value) : option (list value) :=
  match v with
  | VRef l => match h !! l with Some (Arr es) => Some es | _ => None end
  | _ => None
  end.

(** [typeof value === 'object' && value !== null] *)
Definition isFlattenable (v : value) : bool :=
  match v with VRef _ => true | _ => false end.

(** [Object.values(v)] for an object or array. *)
Definition Object_values (v : value) : list value :=
  match v with
  | VRef l =>
      match h !! l with
      | Some (Arr es) => es
      | Some (Obj props) => map snd props
      | None => []
      end
  | _ => []
  end.

Fixpoint assoc (k : string) (props : list (string * value)) : value :=
  match props with
  | [] => VUndefined
  | (k', v) :: rest => if String.eqb k' k then v else assoc k rest
  end.

(** The position named by a property key, when the key is the canonical
    numeral of a position below [n]. *)
Definition index_of_key (n : nat) (k : string) : option nat :=
  List.find (fun i => String.eqb (pretty i) k) (seq 0 n).

(** [arr[k]] : an element, the length, or undefined. *)
Definition array_get (es : list value) (k : string) : value :=
  if String.eqb k "length" then VNumber (Z.of_nat (length es))
  else match index_of_key (length es) k with
       | Some i => nth i es VUndefined
       | None => VUndefined
       end.

Definition string_get (s : string) (k : string) : value :=
  if String.eqb k "length" then VNumber (Z.of_nat (String.length s))
  else match index_of_key (String.length s) k with
       | Some i => VString (String.substring i 1 s)
       | None => VUndefined
       end.

(** [v[k]] on own data properties: reading a property of [undefined] or
    [null] throws; members inherited from the built-in prototypes are
    not data and are left out. *)
Definition get (v : value) (k : string) : outcome value :=
  match v with
  | VUndefined | VNull => Throw TypeError
  | VBool _ | VNumber _ => Return VUndefined
  | VString s => Return (string_get s k)
  | VRef l =>
      match h !! l with
      | Some (Arr es) => Return (array_get es k)
      | Some (Obj props) => Return (assoc k props)
      | None => Return VUndefined
      end
  end.

(** What a local of the resolvers may hold: a value of the input, or an
    array just built by [flatMap] or [flat], which no location names. *)
Inductive local :=
| Held (v : value)
| Built (elems : list value).

Definition isArray (c : local) : option (list value) :=
  match c with
  | Held v => array_at v
  | Built es => Some es
  end.

Definition get_current (c : local) (k : string) : outcome value :=
  match c with
  | Held v => get v k
  | Built es => Return (array_get es k)
  end.

(** [arr.flat(d)] for [d] levels. *)
Fixpoint flat_levels (d : nat) (es : list value) : list value :=
  flat_map (fun e =>
    match d, array_at e with
    | S d', Some es' => flat_levels d' es'
    | _, _ => [e]
    end) es.

(** [arr.flat(depth)] : a depth of zero or less copies the array. *)
Definition flat (depth : Z) (es : list value) : list value :=
  flat_levels (Z.to_nat depth) es.

(** [arr.flatMap(item => item[key])] *)
Definition flatMap_get (key : string) (es : list value) : outcome (list value) :=
  rs ← mapM (fun item => get item key) es;
  mret (flat 1 rs).

End Store.

(** ** Path resolution *)

Section Resolver.
Context (h : heap).

(** The [for] loop of [getNestedValue]: [inl vs] when the body executes
    [return vs], [inr current] when the loop runs to its end. *)
Fixpoint getNestedValue_loop (segments : list string) (current : local)
  : outcome (list value + local) :=
  match segments with
  | [] => mret (inr current)
  | segment :: rest =>
      if endsWith segment "[]" then
        let key := slice_0_neg2 segment in
        match isArray h current with
        | Some es =>
            expanded ← flatMap_get h key es;
            getNestedValue_loop rest (Built expanded)
        | None =>
            v ← get_current h current key;
            match array_at h v with
            | Some _ => getNestedValue_loop rest (Held v)
            | None => mret (inl [])
            end
        end
      else
        v ← get_current h current segment;
        if bool_decide (v = VUndefined) then mret (inl [])
        else match array_at h v with
             | Some es => getNestedValue_loop rest (Built (flat h 1 es))
             | None => getNestedValue_loop rest (Held v)
             end
  end.

(** The [try] block of [getNestedValue]: [inl vs] is a [return vs] from
    inside it, [inr results] is falling out of it with [results] filled. *)
Definition getNestedValue_try (obj : value) (path : string) (depth : Z)
  : outcome (list value + list value) :=
  let segments := split "." path in
  r ← getNestedValue_loop segments (Held obj);
  match r with
  | inl vs => mret (inl vs)
  | inr (Built es) => mret (inr (flat h depth es))
  | inr (Held v) =>
      match array_at h v with
      | Some es => mret (inr (flat h depth es))
      | None => mret (inr [v])
      end
  end.

Definition getNestedValue (obj : value) (path : string) (depth : Z) : list value :=
  match try_catch (getNestedValue_try obj path depth) (inl []) with
  | inl vs => vs
  | inr results => List.filter (fun v => negb (bool_decide (v = VUndefined))) results
  end.

(** The [for] loop of [getValueByPath]; every exit of the loop body is a
    [return]. *)
Fixpoint getValueByPath_loop (segments : list string) (current : local)
  : outcome local :=
  match segments with
  | [] => mret current
  | segment :: rest =>
      match (if endsWith segment "[]" then isArray h current else None) with
      | Some es =>
          let key := slice_0_neg2 segment in
          expanded ← flatMap_get h key es;
          mret (Built expanded)
      | None =>
          v ← get_current h current segment;
          if bool_decide (v = VUndefined) then mret (Held VUndefined)
          else getValueByPath_loop rest (Held v)
      end
  end.

Definition getValueByPath_try (obj : value) (path : string) : outcome local :=
  getValueByPath_loop (split "." path) (Held obj).

Definition getValueByPath (obj : value) (path : string) : local :=
  try_catch (getValueByPath_try obj path) (Held VUndefined).

(** [path.split('.').map(s => s.trim()).filter(Boolean)] *)
Definition parsePath (path : string) : list string :=
  List.filter (fun s => negb (String.eqb s "")) (map trim (split "." path)).

(** ** Flattening *)

(** [flatten] recurses on [depth - 1] under the test [depth <= 0]; the
    fuel stands for the call stack and is never exhausted when it starts
    at [depth] (see [flatten_rec_fuel]). *)
Fixpoint flatten_rec (fuel : nat) (val : value) (depth : Z) : list value :=
  if (depth <=? 0) || negb (isFlattenable val) then [val]
  else match fuel with
       | O => []
       | S fuel' =>
           flat_map (fun v => flatten_rec fuel' v (depth - 1)) (Object_values h val)
       end.

Definition flatten (val : value) (depth : Z) : list value :=
  flatten_rec (Z.to_nat depth) val depth.

Definition flattenObject (obj : value) (depth : Z) : list value :=
  flat_map (fun val => flatten val depth) (Object_values h obj).

(** ** Matchers *)

(** [String(v)].  An array is the comma-joined text of its elements, with
    [null] and [undefined] blank; an array met again while it is being
    joined is blank, which is how the engine cuts cycles. *)
Fixpoint ToString_rec (fuel : nat) (joining : list loc) (v : value) : string :=
  match v with
  | VUndefined => "undefined"
  | VNull => "null"
  | VBool true => "true"
  | VBool false => "false"
  | VNumber n => pretty n
  | VString s => s
  | VRef l =>
      match h !! l with
      | Some (Arr es) =>
          if bool_decide (l ∈ joining) then ""
          else match fuel with
               | O => ""
               | S fuel' =>
                   join "," (map (fun e =>
                     match e with
                     | VUndefined | VNull => ""
                     | _ => ToString_rec fuel' (l :: joining) e
                     end) es)
               end
      | _ => "[object Object]"
      end
  end.

Definition ToString (v : value) : string :=
  ToString_rec (S (size h)) [] v.

Definition defaultMatcher (value term : value) : bool :=
  let strValue := toLowerCase (ToString value) in
  let strTerm := toLowerCase (ToString term) in
  includes strValue strTerm.

End Resolver.

Definition exactMatcher (value term : value) : bool := strict_eq value term.

(** ** Regular expressions *)

(** What the matcher factory needs of the platform's [RegExp]. *)
Class RegExpEngine := {
  regexp : Type;
  (** [new RegExp(pattern, flags)], which throws on a malformed pattern or
      flag string *)
  RegExp_new : string → string → outcome regexp;
  (** [re.test(text)] on a freshly built expression *)
  RegExp_test : regexp → string → bool
}.

(** The engine on a fragment of the pattern language: literals, [.],
    the escapes [\d \D \w \W \s \S \t \n \v \f \r] and escaped punctuation,
    bracketed classes with ranges and negation, groups, alternation, the
    quantifiers [* + ?] (greedy or lazy) and the anchors [^ $], under the
    flags [i m s y].  Counted repetition, look-around, back-references,
    named groups and numeric escapes lie outside it and are rejected. *)
Module Fragment.

Inductive charset :=
| Any
| Lit (c : ascii)
| Digit
| Word
| Space
| Range (lo hi : ascii)
| Nothing
| Union (a b : charset)
| Not (s : charset).

Inductive node :=
| Eps
| Chars (s : charset)
| Seq (a b : node)
| Alt (a b : node)
| Star (a : node)
| Bol
| Eol.

Record flagset := {
  ignoreCase : bool;
  multiline : bool;
  dotAll : bool;
  sticky : bool
}.

Definition code := nat_of_ascii.

Definition between (lo hi c : nat) : bool := (lo <=? c)%nat && (c <=? hi)%nat.

Definition is_digit (c : ascii) : bool := between 48 57 (code c).
Definition is_word (c : ascii) : bool :=
  between 48 57 (code c) || between 65 90 (code c) || between 97 122 (code c)
  || (code c =? 95)%nat.
Definition is_white (c : ascii) : bool :=
  (code c =? 32)%nat || between 9 13 (code c).
Definition is_newline (c : ascii) : bool :=
  (code c =? 10)%nat || (code c =? 13)%nat.

Definition upper (c : ascii) : ascii :=
  if between 97 122 (code c) then ascii_of_nat (code c - 32) else c.
Definition lower (c : ascii) : ascii :=
  if between 65 90 (code c) then ascii_of_nat (code c + 32) else c.

Fixpoint member (fl : flagset) (s : charset) (c : ascii) : bool :=
  let either (p : ascii → bool) :=
    if ignoreCase fl then p (upper c) || p (lower c) else p c in
  match s with
  | Any => dotAll fl || negb (is_newline c)
  | Lit x => either (Ascii.eqb x)
  | Digit => is_digit c
  | Word => either is_word
  | Space => is_white c
  | Range lo hi => either (fun a => between (code lo) (code hi) (code a))
  | Nothing => false
  | Union a b => member fl a c || member fl b c
  | Not s' => negb (member fl s' c)
  end.

(** Backtracking match of [r] at a position, given the character before
    it and the text after it; [k] continues with the rest.  A starred
    body must consume a character on every round. *)
Fixpoint run (fl : flagset) (r : node) (prev : option ascii) (s : list ascii)
    (k : option ascii → list ascii → bool) : bool :=
  match r with
  | Eps => k prev s
  | Chars cs =>
      match s with
      | c :: s' => member fl cs c && k (Some c) s'
      | [] => false
      end
  | Seq a b => run fl a prev s (fun prev' s' => run fl b prev' s' k)
  | Alt a b => run fl a prev s k || run fl b prev s k
  | Star a =>
      (fix rounds (n : nat) (prev : option ascii) (s : list ascii) : bool :=
         k prev s ||
         match n with
         | O => false
         | S n' =>
             run fl a prev s (fun prev' s' =>
               (length s' <? length s)%nat && rounds n' prev' s')
         end) (length s) prev s
  | Bol =>
      match prev with
      | None => k prev s
      | Some c => multiline fl && is_newline c && k prev s
      end
  | Eol =>
      match s with
      | [] => k prev s
      | c :: _ => multiline fl && is_newline c && k prev s
      end
  end.

(** A match starting at some position of the text (at the first one only
    when sticky). *)
Fixpoint search (fl : flagset) (r : node) (prev : option ascii) (s : list ascii) : bool :=
  run fl r prev s (fun _ _ => true) ||
  match s with
  | [] => false
  | c :: s' => negb (sticky fl) && search fl r (Some c) s'
  end.

(** *** Pattern syntax *)

Inductive token :=
| TChar (c : ascii)
| TOpen | TClose | TBracket | TUnbracket | TBrace | TUnbrace
| TBar | TStar | TPlus | TQuery | TDot | TCaret | TDollar | TDash
| TBackslash.

Definition tokens_table : list (ascii * token) :=
  [("("%char, TOpen); (")"%char, TClose); ("["%char, TBracket);
   ("]"%char, TUnbracket); ("{"%char, TBrace); ("}"%char, TUnbrace);
   ("|"%char, TBar); ("*"%char, TStar); ("+"%char, TPlus);
   ("?"%char, TQuery); ("."%char, TDot); ("^"%char, TCaret);
   ("$"%char, TDollar); ("-"%char, TDash); ("\"%char, TBackslash)].

#[global] Instance token_eq_dec : EqDecision token.
Proof. solve_decision. Defined.

Definition token_of (c : ascii) : token :=
  match List.find (fun e => Ascii.eqb (fst e) c) tokens_table with
  | Some e => snd e
  | None => TChar c
  end.

Definition char_of (t : token) : ascii :=
  match List.find (fun e => bool_decide (snd e = t)) tokens_table, t with
  | Some e, _ => fst e
  | None, TChar c => c
  | None, _ => "000"%char
  end.

Definition escapes_table : list (ascii * charset) :=
  [("d"%char, Digit); ("D"%char, Not Digit); ("w"%char, Word);
   ("W"%char, Not Word); ("s"%char, Space); ("S"%char, Not Space);
   ("t"%char, Lit "009"); ("n"%char, Lit "010"); ("v"%char, Lit "011");
   ("f"%char, Lit "012"); ("r"%char, Lit "013")].

(** The set named by the character after a backslash. *)
Definition escape (t : token) : option charset :=
  let c := char_of t in
  match List.find (fun e => Ascii.eqb (fst e) c) escapes_table with
  | Some e => Some (snd e)
  | None => if is_word c then None else Some (Lit c)
  end.

(** The members of a class up to its closing bracket. *)
Fixpoint class_items (fuel : nat) (s : list token) : option (charset * list token) :=
  match fuel with
  | O => None
  | S fuel' =>
      match s with
      | [] => None
      | TUnbracket :: rest => Some (Nothing, rest)
      | TBackslash :: t :: rest =>
          cs ← escape t;
          '(items, rest') ← class_items fuel' rest;
          Some (Union cs items, rest')
      | TBackslash :: [] => None
      | lo :: TDash :: TUnbracket :: rest =>
          Some (Union (Lit (char_of lo)) (Lit "-"), rest)
      | _ :: TDash :: TBackslash :: _ => None
      | lo :: TDash :: hi :: rest =>
          if (code (char_of lo) <=? code (char_of hi))%nat then
            '(items, rest') ← class_items fuel' rest;
            Some (Union (Range (char_of lo) (char_of hi)) items, rest')
          else None
      | t :: rest =>
          '(items, rest') ← class_items fuel' rest;
          Some (Union (Lit (char_of t)) items, rest')
      end
  end.

Definition class (s : list token) : option (charset * list token) :=
  match s with
  | TCaret :: rest =>
      '(items, rest') ← class_items (S (length rest)) rest;
      Some (Not items, rest')
  | _ => class_items (S (length s)) s
  end.

(** A quantifier after an atom, greedy or lazy (the same for [test]). *)
Definition quantified (atom : node) (s : list token) : option (node * list token) :=
  let lazy (rest : list token) :=
    match rest with TQuery :: rest' => rest' | _ => rest end in
  match s with
  | TStar :: rest => Some (Star atom, lazy rest)
  | TPlus :: rest => Some (Seq atom (Star atom), lazy rest)
  | TQuery :: rest => Some (Alt atom Eps, lazy rest)
  | TBrace :: _ => None
  | _ => Some (atom, s)
  end.

Fixpoint disjunction (fuel : nat) (s : list token) : option (node * list token) :=
  match fuel with
  | O => None
  | S fuel' =>
      '(a, s1) ← alternative fuel' s;
      match s1 with
      | TBar :: s2 =>
          '(b, s3) ← disjunction fuel' s2;
          Some (Alt a b, s3)
      | _ => Some (a, s1)
      end
  end
with alternative (fuel : nat) (s : list token) : option (node * list token) :=
  match fuel with
  | O => None
  | S fuel' =>
      match s with
      | [] | TBar :: _ | TClose :: _ => Some (Eps, s)
      | _ =>
          '(t, s1) ← term fuel' s;
          '(rest, s2) ← alternative fuel' s1;
          Some (Seq t rest, s2)
      end
  end
with term (fuel : nat) (s : list token) : option (node * list token) :=
  match fuel with
  | O => None
  | S fuel' =>
      match s with
      | TCaret :: rest => Some (Bol, rest)
      | TDollar :: rest => Some (Eol, rest)
      | TOpen :: TQuery :: _ => None
      | TOpen :: rest =>
          '(r, s1) ← disjunction fuel' rest;
          match s1 with
          | TClose :: s2 => quantified r s2
          | _ => None
          end
      | TBracket :: rest =>
          '(cs, s1) ← class rest;
          quantified (Chars cs) s1
      | TBackslash :: t :: rest =>
          cs ← escape t;
          quantified (Chars cs) rest
      | TDot :: rest => quantified (Chars Any) rest
      | TChar c :: rest => quantified (Chars (Lit c)) rest
      | TDash :: rest => quantified (Chars (Lit "-")) rest
      | _ => None
      end
  end.

Definition pattern (source : string) : option node :=
  let s := map token_of (String.list_ascii_of_string source) in
  match disjunction (4 * length s + 4) s with
  | Some (r, []) => Some r
  | _ => None
  end.

(** Flags: letters of [dgimsuvy], none twice, not [u] with [v]. *)
Definition flags (fs : string) : option flagset :=
  let l := String.list_ascii_of_string fs in
  let has c := existsb (Ascii.eqb c) l in
  if forallb (fun c => existsb (Ascii.eqb c) (String.list_ascii_of_string "dgimsuvy")) l
     && bool_decide (NoDup l) && negb (has "u"%char && has "v"%char)
  then Some {| ignoreCase := has "i"%char; multiline := has "m"%char;
               dotAll := has "s"%char; sticky := has "y"%char |}
  else None.

Definition compile (source fs : string) : outcome (flagset * node) :=
  match flags fs, pattern source with
  | Some fl, Some r => Return (fl, r)
  | _, _ => Throw SyntaxError
  end.

Definition test (re : flagset * node) (text : string) : bool :=
  search (fst re) (snd re) None (String.list_ascii_of_string text).

#[global] Instance engine : RegExpEngine :=
  {| regexp := flagset * node; RegExp_new := compile; RegExp_test := test |}.

End Fragment.

Section RegExpMatcher.
Context {engine : RegExpEngine} (h : heap).

(** The source text [new RegExp] reads off its first argument. *)
Definition pattern_source (pattern : value) : string :=
  match pattern with
  | VUndefined => ""
  | _ => ToString h pattern
  end.

Definition createRegExpMatcher_try (flags : string) (value pattern : value)
  : outcome bool :=
  re ← RegExp_new (pattern_source pattern) flags;
  mret (RegExp_test re (ToString h value)).

Definition createRegExpMatcher (flags : option string) : value → value → bool :=
  let flags := default "i" flags in
  fun value pattern => try_catch (createRegExpMatcher_try flags value pattern) false.

End RegExpMatcher.

(** ** Matching one item *)

Definition MatchFunction := value → value → bool.

(** The module-level [pathCache]: a [Map] from path string to segment list. *)
Abbreviation pathCache := (gmap string (list string)).

Definition DEFAULT_MAX_DEPTH : Z := 10.

Record SearchOptions := {
  keys : option (list string);
  customMatch : option MatchFunction;
  maxDepth : option Z;
  enablePathCache : option bool;
  parallel : option bool
}.

(** [{}] *)
Definition no_options : SearchOptions :=
  {| keys := None; customMatch := None; maxDepth := None;
     enablePathCache := None; parallel := None |}.

(** What [searchData] hands back: an array, or a promise of one. *)
Inductive returned (A : Type) :=
| Plain (a : A)
| Promised (a : A).
Arguments Plain {A} a.
Arguments Promised {A} a.

Definition await {A} (r : returned A) : A :=
  match r with Plain a | Promised a => a end.

Section Search.
Context (h : heap).

(** [rs.flat()] over what [getValueByPath] returned for each cached entry. *)
Definition flat_locals (rs : list local) : list value :=
  flat_map (fun r =>
    match r with
    | Built es => es
    | Held v =>
        match array_at h v with
        | Some es => es
        | None => [v]
        end
    end) rs.

(** The values the body of [keys.some] computes for one path, with the
    cache it leaves. *)
Definition path_values (item : value) (path : string) (maxDepth : Z)
    (enablePathCache : bool) (cache : pathCache) : list value * pathCache :=
  if enablePathCache then
    match cache !! path with
    | Some cached =>
        (flat_locals (map (fun p => getValueByPath h item p) cached), cache)
    | None =>
        (getNestedValue h item path maxDepth, <[path := [path]]> cache)
    end
  else (getNestedValue h item path maxDepth, cache).

(** [keys.some(path => ...)], left to right, stopping at the first hit. *)
Fixpoint some_path (item term : value) (keys : list string)
    (customMatch : MatchFunction) (maxDepth : Z) (enablePathCache : bool)
    (cache : pathCache) : bool * pathCache :=
  match keys with
  | [] => (false, cache)
  | path :: rest =>
      let '(values, cache') := path_values item path maxDepth enablePathCache cache in
      if existsb (fun v => customMatch v term) values then (true, cache')
      else some_path item term rest customMatch maxDepth enablePathCache cache'
  end.

Definition matchItem (item term : value) (keys : option (list string))
    (customMatch : MatchFunction) (maxDepth : Z) (enablePathCache : bool)
    (cache : pathCache) : bool * pathCache :=
  if negb (isFlattenable item) then (customMatch item term, cache)
  else match keys with
       | None | Some [] =>
           let flattened := flattenObject h item maxDepth in
           (existsb (fun v => customMatch v term) flattened, cache)
       | Some keys =>
           some_path item term keys customMatch maxDepth enablePathCache cache
       end.

(** ** The entry point *)

(** [data.filter(item => pred(item))] for a predicate that reads and
    writes the cache. *)
Fixpoint filter_with (pred : value → pathCache → bool * pathCache)
    (data : list value) (cache : pathCache) : list value * pathCache :=
  match data with
  | [] => ([], cache)
  | item :: rest =>
      let '(keep, cache1) := pred item cache in
      let '(kept, cache2) := filter_with pred rest cache1 in
      (if keep then item :: kept else kept, cache2)
  end.

(** [chunks.map(chunk => new Promise(resolve => resolve(chunk.filter(..))))]:
    each executor runs at once, so the chunks are filtered in order. *)
Fixpoint map_filter_with (pred : value → pathCache → bool * pathCache)
    (chunks : list (list value)) (cache : pathCache)
  : list (list value) * pathCache :=
  match chunks with
  | [] => ([], cache)
  | chunk :: rest =>
      let '(kept, cache1) := filter_with pred chunk cache in
      let '(results, cache2) := map_filter_with pred rest cache1 in
      (kept :: results, cache2)
  end.

(** [Math.ceil(a / b)] for a positive [b]. *)
Definition ceil_div (a b : nat) : nat := ((a + b - 1) / b)%nat.

(** [data.slice(from, to)] *)
Definition slice {A} (from to : nat) (data : list A) : list A :=
  firstn (to - from) (skipn from data).

Definition make_chunks (data : list value) : list (list value) :=
  let chunkSize := ceil_div (length data) 4 in
  map (fun i => slice (i * chunkSize) ((i + 1) * chunkSize) data)
      (seq 0 (ceil_div (length data) chunkSize)).

Definition searchData (data : list value) (term : value)
    (options : SearchOptions) (cache : pathCache)
  : returned (list value) * pathCache :=
  let keys := keys options in
  let customMatch := default (defaultMatcher h) (customMatch options) in
  let maxDepth := default DEFAULT_MAX_DEPTH (maxDepth options) in
  let enablePathCache := default true (enablePathCache options) in
  let parallel := default false (parallel options) in
  let pred item := matchItem item term keys customMatch maxDepth enablePathCache in
  if parallel && (1000 <? length data)%nat then
    let chunks := make_chunks data in
    let '(results, cache') := map_filter_with pred chunks cache in
    (Promised (concat results), cache')
  else
    let '(kept, cache') := filter_with pred data cache in
    (Plain kept, cache').

End Search.

(** * Vocabulary of the properties *)

(** The predicate [searchData] filters with, once the options are resolved. *)
Definition item_pred (h : heap) (term : value) (o : SearchOptions)
  : value → pathCache → bool * pathCache :=
  fun item =>
    matchItem h item term (keys o)
      (default (defaultMatcher h) (customMatch o))
      (default DEFAULT_MAX_DEPTH (maxDepth o))
      (default true (enablePathCache o)).

Definition set_parallel (p : option bool) (o : SearchOptions) : SearchOptions :=
  {| keys := keys o; customMatch := customMatch o; maxDepth := maxDepth o;
     enablePathCache := enablePathCache o; parallel := p |}.

Definition set_keys (ks : option (list string)) (o : SearchOptions) : SearchOptions :=
  {| keys := ks; customMatch := customMatch o; maxDepth := maxDepth o;
     enablePathCache := enablePathCache o; parallel := parallel o |}.

(** [steps n v w]: [w] is reached from [v] by reading [n] properties. *)
Fixpoint steps (h : heap) (n : nat) (v w : value) : Prop :=
  match n with
  | O => v = w
  | S n' => ∃ u, In u (Object_values h v) ∧ steps h n' u w
  end.

(** What a budget of one keeps of an item: its primitive values, and the
    values of its object- or array-valued properties as they are. *)
Definition kept_within_one (h : heap) (item : value) : list value :=
  flat_map (fun v => if isFlattenable v then Object_values h v else [v])
           (Object_values h item).

(** [{a: {b: {c: "needle"}}}] *)
Definition nested3 : heap :=
  <[ 0%nat := Obj [("a", VRef 1)] ]>
  (<[ 1%nat := Obj [("b", VRef 2)] ]>
  (<[ 2%nat := Obj [("c", VString "needle")] ]> ∅)).

Definition depth_option (d : Z) : SearchOptions :=
  {| keys := None; customMatch := None; maxDepth := Some d;
     enablePathCache := None; parallel := None |}.

(** [x = {name: "test"}; x.self = x] *)
Definition selfref : heap :=
  {[ 0%nat := Obj [("name", VString "test"); ("self", VRef 0)] ]}.

(** [w] is a property value of [v]. *)
Definition child (h : heap) (v w : value) : Prop := In w (Object_values h v).

(** The reading of the sentence on cyclic data as it stands: the item is
    returned exactly when the matcher accepts a value that is reachable from
    it and does not lie on a cycle. *)
Definition found_iff_acyclic_match (h : heap) (item term : value) : Prop :=
  In item (await (fst (searchData h [item] term no_options ∅)))
  ↔ ∃ w, rtc (child h) item w ∧ ¬ tc (child h) w w ∧ defaultMatcher h w term = true.

(** Every entry maps a path to the one-element list holding that path. *)
Definition cache_ok (c : pathCache) : Prop :=
  ∀ p segs, c !! p = Some segs → segs = [p].

(** [c'] extends [c] and is as well-formed. *)
Definition grows (c c' : pathCache) : Prop :=
  c ⊆ c' ∧ (cache_ok c → cache_ok c').

(** One call of the entry point, on the data as it is at that moment. *)
Record call := {
  call_heap : heap;
  call_data : list value;
  call_term : value;
  call_options : SearchOptions
}.

(** The cache after a run of calls. *)
Fixpoint session (calls : list call) (cache : pathCache) : pathCache :=
  match calls with
  | [] => cache
  | c :: rest =>
      session rest
        (snd (searchData (call_heap c) (call_data c) (call_term c) (call_options c) cache))
  end.

Definition dots (s : string) : nat :=
  length (List.filter (fun c => Ascii.eqb c ".") (String.list_ascii_of_string s)).

(** [{orders: [{item: "a"}, {item: "b"}]}] *)
Definition orders : heap :=
  <[ 0%nat := Obj [("orders", VRef 1)] ]>
  (<[ 1%nat := Arr [VRef 2; VRef 3] ]>
  (<[ 2%nat := Obj [("item", VString "a")] ]>
  (<[ 3%nat := Obj [("item", VString "b")] ]> ∅))).

Definition keys_option (ks : list string) (cached : bool) : SearchOptions :=
  {| keys := Some ks; customMatch := None; maxDepth := None;
     enablePathCache := Some cached; parallel := None |}.

(** [[{tags: ["a"]}, {tags: ["a"]}]] *)
Definition tagged : heap :=
  <[ 0%nat := Obj [("tags", VRef 2)] ]>
  (<[ 1%nat := Obj [("tags", VRef 3)] ]>
  (<[ 2%nat := Arr [VString "a"] ]>
  (<[ 3%nat := Arr [VString "a"] ]> ∅))).

(** [[{a: 1}, {a: 2}]] *)
Definition pair : heap :=
  <[ 0%nat := Obj [("a", VNumber 1)] ]> (<[ 1%nat := Obj [("a", VNumber 2)] ]> ∅).

(** Options under which a search neither reads nor writes the cache: no
    paths to resolve, or the cache switched off. *)
Definition cache_free (o : SearchOptions) : Prop :=
  keys o = None ∨ keys o = Some [] ∨ enablePathCache o = Some false.

(** What [matchItem] decides when the cache plays no part. *)
Definition pure_match (h : heap) (term : value) (o : SearchOptions) (item : value) : bool :=
  let m := default (defaultMatcher h) (customMatch o) in
  let depth := default DEFAULT_MAX_DEPTH (maxDepth o) in
  if negb (isFlattenable item) then m item term
  else match keys o with
       | None | Some [] =>
           existsb (fun v => m v term) (flattenObject h item depth)
       | Some ks =>
           existsb (fun path =>
             existsb (fun v => m v term) (getNestedValue h item path depth)) ks
       end.

Definition set_customMatch (m : MatchFunction) (o : SearchOptions) : SearchOptions :=
  {| keys := keys o; customMatch := Some m; maxDepth := maxDepth o;
     enablePathCache := enablePathCache o; parallel := parallel o |}.

(** Walking plain segments through objects: the value reached when every
    segment names a defined property and none of the values met is an
    array; [None] otherwise. *)
Fixpoint descend (h : heap) (segments : list string) (v : value) : option value :=
  match segments with
  | [] => Some v
  | segment :: rest =>
      if endsWith segment "[]" then None
      else match get h v segment with
           | Return u =>
               if bool_decide (u = VUndefined) then None
               else match array_at h u with
                    | Some _ => None
                    | None => descend h rest u
                    end
           | Throw _ => None
           end
  end.

Definition set_maxDepth (d : Z) (o : SearchOptions) : SearchOptions :=
  {| keys := keys o; customMatch := customMatch o; maxDepth := Some d;
     enablePathCache := enablePathCache o; parallel := parallel o |}.

(** [{user: {address: {city: "Oslo"}}}] *)
Definition profile : heap :=
  <[ 0%nat := Obj [("user", VRef 1)] ]>
  (<[ 1%nat := Obj [("address", VRef 2)] ]>
  (<[ 2%nat := Obj [("city", VString "Oslo")] ]> ∅)).

(** * Properties *)

Local Open Scope list_scope.

(** ** Chunked and serial filtering *)

Section Chunks.
Context {A : Type}.

Lemma firstn_plus (a b : nat) (l : list A) :
  firstn a l ++ firstn b (skipn a l) = firstn (a + b) l.
Proof.
  revert l. induction a as [|a IH]; intros l; simpl.
  - by rewrite drop_0.
  - destruct l as [|x l]; simpl.
    + by rewrite take_nil.
    + f_equal. apply IH.
Qed.

Lemma concat_slices (cs : nat) (data : list A) (k a : nat) :
  concat (map (fun i => slice (i * cs) ((i + 1) * cs) data) (seq a k))
  = firstn (k * cs) (skipn (a * cs) data).
Proof.
  revert a. induction k as [|k IH]; intros a; simpl; [done|].
  rewrite IH. unfold slice.
  replace ((a + 1) * cs - a * cs)%nat with cs by lia.
  replace (S a * cs)%nat with (a * cs + cs)%nat by lia.
  rewrite <- drop_drop.
  apply firstn_plus.
Qed.

End Chunks.

Lemma ceil_div_covers (n cs : nat) :
  (0 < cs)%nat → (n ≤ ceil_div n cs * cs)%nat.
Proof.
  intros Hcs. unfold ceil_div.
  pose proof (Nat.div_mod_eq (n + cs - 1) cs) as E.
  pose proof (Nat.mod_upper_bound (n + cs - 1) cs) as B.
  nia.
Qed.

Lemma ceil_div_pos (n cs : nat) : (0 < n)%nat → (0 < cs)%nat → (0 < ceil_div n cs)%nat.
Proof.
  intros Hn Hcs. unfold ceil_div.
  apply Nat.div_str_pos. lia.
Qed.

Lemma ceil_div_upper (n cs k : nat) :
  (0 < cs)%nat → (n ≤ k * cs)%nat → (ceil_div n cs ≤ k)%nat.
Proof.
  intros Hcs Hn. unfold ceil_div.
  pose proof (Nat.div_mod_eq (n + cs - 1) cs) as E.
  pose proof (Nat.mod_upper_bound (n + cs - 1) cs) as B.
  nia.
Qed.

Lemma make_chunks_concat (data : list value) :
  data ≠ [] → concat (make_chunks data) = data.
Proof.
  intros Hne. unfold make_chunks.
  assert (0 < length data)%nat as Hn by (destruct data; [done | simpl; lia]).
  pose proof (ceil_div_pos (length data) 4 Hn ltac:(lia)) as Hcs.
  rewrite concat_slices. simpl. rewrite drop_0.
  apply firstn_all2. by apply ceil_div_covers.
Qed.

Lemma make_chunks_count (data : list value) :
  data ≠ [] → (length (make_chunks data) ≤ 4)%nat.
Proof.
  intros Hne. unfold make_chunks. rewrite length_map, length_seq.
  assert (0 < length data)%nat as Hn by (destruct data; [done | simpl; lia]).
  pose proof (ceil_div_pos (length data) 4 Hn ltac:(lia)) as Hcs.
  apply ceil_div_upper; [done|].
  pose proof (ceil_div_covers (length data) 4 ltac:(lia)). lia.
Qed.

Section FilterWith.
Context (pred : value → pathCache → bool * pathCache).

Lemma filter_with_app (l1 l2 : list value) (cache : pathCache) :
  filter_with pred (l1 ++ l2) cache =
  let '(kept1, cache1) := filter_with pred l1 cache in
  let '(kept2, cache2) := filter_with pred l2 cache1 in
  (kept1 ++ kept2, cache2).
Proof.
  revert cache. induction l1 as [|x l1 IH]; intros cache; simpl.
  - by destruct (filter_with pred l2 cache).
  - destruct (pred x cache) as [keep cache1]. rewrite IH.
    destruct (filter_with pred l1 cache1) as [kept1 cache2].
    destruct (filter_with pred l2 cache2) as [kept2 cache3].
    by destruct keep.
Qed.

Lemma map_filter_with_concat (chunks : list (list value)) (cache : pathCache) :
  let '(results, cache') := map_filter_with pred chunks cache in
  (concat results, cache') = filter_with pred (concat chunks) cache.
Proof.
  revert cache. induction chunks as [|chunk chunks IH]; intros cache; simpl; [done|].
  rewrite filter_with_app.
  destruct (filter_with pred chunk cache) as [kept cache1].
  specialize (IH cache1).
  destruct (map_filter_with pred chunks cache1) as [results cache2].
  rewrite <- IH. done.
Qed.

Lemma filter_with_In (data : list value) (cache : pathCache) (x : value) :
  In x (fst (filter_with pred data cache)) →
  In x data ∧ ∃ cache0, fst (pred x cache0) = true.
Proof.
  revert cache. induction data as [|y data IH]; intros cache; simpl; [done|].
  destruct (pred y cache) as [keep cache1] eqn:E.
  specialize (IH cache1).
  destruct (filter_with pred data cache1) as [kept cache2]. simpl in *.
  destruct keep; simpl.
  - intros [->|Hin].
    + split; [by left|]. exists cache. by rewrite E.
    + destruct (IH Hin) as [? ?]. split; [by right | done].
  - intros Hin. destruct (IH Hin) as [? ?]. split; [by right | done].
Qed.

End FilterWith.

(** In either mode the awaited result and the cache left behind are those
    of one pass of the filter over the whole collection. *)
Lemma searchData_filter (h : heap) (data : list value) (term : value)
    (o : SearchOptions) (cache : pathCache) :
  (await (fst (searchData h data term o cache)), snd (searchData h data term o cache))
  = filter_with (item_pred h term o) data cache.
Proof.
  unfold searchData. fold (item_pred h term o).
  destruct (default false (parallel o) && (1000 <? length data)%nat) eqn:Hpar.
  - apply andb_true_iff in Hpar as [_ Hlen%Nat.ltb_lt].
    assert (data ≠ []) as Hne by (intros ->; simpl in Hlen; lia).
    pose proof (map_filter_with_concat (item_pred h term o) (make_chunks data) cache) as Hc.
    destruct (map_filter_with _ _ _) as [results cache']. simpl.
    by rewrite Hc, make_chunks_concat.
  - by destruct (filter_with _ _ _).
Qed.

(** C3: on a collection of more than 1000 elements, [parallel: true] delivers
    (as a promise) exactly the array that [parallel: false] returns, in the
    same order, and leaves the same cache: the collection is cut into at most
    four contiguous chunks whose concatenation is the collection, each chunk
    is filtered with the same item predicate, and the chunk results are
    concatenated in chunk order. *)
Theorem C3_parallel_equals_serial (h : heap) (data : list value) (term : value)
    (o : SearchOptions) (cache : pathCache) :
  (1000 < length data)%nat →
  let par := searchData h data term (set_parallel (Some true) o) cache in
  let ser := searchData h data term (set_parallel (Some false) o) cache in
  let chunks := make_chunks data in
  (length chunks ≤ 4)%nat
  ∧ concat chunks = data
  ∧ fst par = Promised (concat (fst (map_filter_with (item_pred h term o) chunks cache)))
  ∧ fst ser = Plain (fst (filter_with (item_pred h term o) data cache))
  ∧ await (fst par) = await (fst ser)
  ∧ snd par = snd ser.
Proof.
  intros Hlen par ser chunks.
  assert (data ≠ []) as Hne by (intros ->; simpl in Hlen; lia).
  pose proof (searchData_filter h data term (set_parallel (Some true) o) cache) as Hp.
  pose proof (searchData_filter h data term (set_parallel (Some false) o) cache) as Hs.
  fold par in Hp. fold ser in Hs.
  change (item_pred h term (set_parallel (Some true) o)) with (item_pred h term o) in Hp.
  change (item_pred h term (set_parallel (Some false) o)) with (item_pred h term o) in Hs.
  split; [by apply make_chunks_count|].
  split; [by apply make_chunks_concat|].
  split.
  { subst par. unfold searchData. simpl.
    apply Nat.ltb_lt in Hlen. rewrite Hlen.
    fold (item_pred h term o). fold chunks.
    by destruct (map_filter_with _ _ _). }
  split.
  { subst ser. unfold searchData. simpl.
    fold (item_pred h term o).
    by destruct (filter_with _ _ _). }
  split; congruence.
Qed.

(** The numbers 0 to 1000, searched for the digit 7. *)
Lemma C3_parallel_equals_serial_witness :
  let data := map (fun i => VNumber (Z.of_nat i)) (seq 0 1001) in
  (1000 < length data)%nat ∧
  await (fst (searchData ∅ data (VString "7") (set_parallel (Some true) no_options) ∅))
  = await (fst (searchData ∅ data (VString "7") (set_parallel (Some false) no_options) ∅)).
Proof.
  intros data.
  assert (1000 < length data)%nat as Hlen by (vm_compute; lia).
  split; [exact Hlen|].
  exact (proj1 (proj2 (proj2 (proj2 (proj2
    (C3_parallel_equals_serial ∅ data (VString "7") no_options ∅ Hlen)))))).
Defined.

(** ** Global search: empty objects, empty key lists, the depth budget *)

(** An empty key list on a store where a path-restricted reading would find
    nothing to look at: the item is still found through its values. *)
Example empty_keys_still_match :
  fst (searchData {[ 0%nat := Obj [("name", VString "iPhone 13")] ]}
         [VRef 0] (VString "iphone") (set_keys (Some []) no_options) ∅)
  = Plain [VRef 0].
Proof. vm_compute. reflexivity. Qed.

(** C9: an object with no enumerable own properties is never kept by a
    global search, whatever the term, depth and matcher, even a matcher that
    accepts every pair: there is no flattened value to offer it. *)
Theorem C9_empty_object_never_matches (h : heap) (item term : value)
    (data : list value) (o : SearchOptions) (cache : pathCache) :
  isFlattenable item = true →
  Object_values h item = [] →
  keys o = None ∨ keys o = Some [] →
  ¬ In item (await (fst (searchData h data term o cache))).
Proof.
  intros Hobj Hvals Hkeys Hin.
  pose proof (searchData_filter h data term o cache) as E.
  apply (f_equal fst) in E. simpl in E. rewrite E in Hin.
  apply filter_with_In in Hin as [_ [cache0 Hm]].
  unfold item_pred, matchItem, flattenObject in Hm.
  rewrite Hobj, Hvals in Hm.
  by destruct Hkeys as [Hk | Hk]; rewrite Hk in Hm.
Qed.

Lemma C9_empty_object_never_matches_witness :
  let h : heap := {[ 0%nat := Obj [] ]} in
  let o := {| keys := None; customMatch := Some (fun _ _ => true);
              maxDepth := None; enablePathCache := None; parallel := None |} in
  ¬ In (VRef 0) (await (fst (searchData h [VRef 0] (VString "") o ∅))).
Proof.
  intros h o.
  apply (C9_empty_object_never_matches h (VRef 0) (VString "") [VRef 0] o ∅).
  - reflexivity.
  - reflexivity.
  - left. reflexivity.
Defined.

(** ** The depth budget *)

Section Flatten.
Context (h : heap).

(** Fuel beyond the depth budget is never consumed. *)
Lemma flatten_rec_fuel (fuel1 fuel2 : nat) (v : value) (depth : Z) :
  (Z.to_nat depth ≤ fuel1)%nat → (Z.to_nat depth ≤ fuel2)%nat →
  flatten_rec h fuel1 v depth = flatten_rec h fuel2 v depth.
Proof.
  revert fuel2 v depth.
  induction fuel1 as [|fuel1 IH]; intros fuel2 v depth H1 H2.
  - assert (depth <= 0) as Hd by lia.
    destruct fuel2; simpl; by rewrite (proj2 (Z.leb_le _ _) Hd).
  - simpl. destruct (depth <=? 0) eqn:Hd.
    + destruct fuel2; simpl; by rewrite Hd.
    + apply Z.leb_gt in Hd.
      destruct fuel2 as [|fuel2]; [lia|]. simpl.
      rewrite (proj2 (Z.leb_gt _ _) Hd). simpl.
      destruct (isFlattenable v); simpl; [|done].
      apply flat_map_ext. intros u. apply IH; lia.
Qed.

(** The defining equation of the source's [flatten], on every store. *)
Lemma flatten_unfold (v : value) (depth : Z) :
  flatten h v depth =
  if (depth <=? 0) || negb (isFlattenable v) then [v]
  else flat_map (fun u => flatten h u (depth - 1)) (Object_values h v).
Proof.
  unfold flatten at 1.
  destruct (Z.to_nat depth) as [|n] eqn:Hn; simpl.
  - assert ((depth <=? 0) = true) as -> by (apply Z.leb_le; lia). done.
  - destruct ((depth <=? 0) || negb (isFlattenable v)); [done|].
    apply flat_map_ext. intros u. unfold flatten.
    apply flatten_rec_fuel; lia.
Qed.

Lemma flatten_zero (v : value) : flatten h v 0 = [v].
Proof. by rewrite flatten_unfold. Qed.

Lemma flatten_leaf (v : value) (depth : Z) :
  isFlattenable v = false → flatten h v depth = [v].
Proof. intros Hv. rewrite flatten_unfold, Hv. by rewrite orb_true_r. Qed.

Lemma flatten_succ (v : value) (d : nat) :
  isFlattenable v = true →
  flatten h v (Z.of_nat (S d)) =
  flat_map (fun u => flatten h u (Z.of_nat d)) (Object_values h v).
Proof.
  intros Hv. rewrite flatten_unfold, Hv.
  assert ((Z.of_nat (S d) <=? 0) = false) as -> by (apply Z.leb_gt; lia).
  simpl. apply flat_map_ext. intros u. f_equal. lia.
Qed.

Lemma Object_values_leaf (v : value) :
  isFlattenable v = false → Object_values h v = [].
Proof. by destruct v. Qed.

(** The leaves kept by [flatten]: the primitives found within the budget,
    and whatever sits exactly where the budget runs out. *)
Lemma flatten_leaves (d : nat) (v w : value) :
  In w (flatten h v (Z.of_nat d)) ↔
  ∃ n, (n ≤ d)%nat ∧ steps h n v w ∧ (n = d ∨ isFlattenable w = false).
Proof.
  revert v. induction d as [|d IH]; intros v.
  - change (Z.of_nat 0) with 0. rewrite flatten_zero. simpl. split.
    + intros [->|[]]. exists O. simpl. auto.
    + intros (n & Hn & Hs & _). assert (n = O) as -> by lia. simpl in Hs. auto.
  - destruct (isFlattenable v) eqn:Hv.
    + rewrite flatten_succ by done. rewrite in_flat_map. split.
      * intros (u & Hu & Hw). apply IH in Hw as (n & Hn & Hs & Hend).
        exists (S n). split; [lia|]. split; [simpl; eauto|].
        destruct Hend as [->|Hl]; auto.
      * intros (n & Hn & Hs & Hend). destruct n as [|n].
        { simpl in Hs. subst w. destruct Hend as [?|Hl]; [lia | congruence]. }
        simpl in Hs. destruct Hs as (u & Hu & Hs).
        exists u. split; [done|]. apply IH.
        exists n. split; [lia|]. split; [done|].
        destruct Hend as [?|?]; [left; lia | by right].
    + rewrite flatten_leaf by done. simpl. split.
      * intros [->|[]]. exists O. simpl. split; [lia|]. auto.
      * intros (n & Hn & Hs & Hend). destruct n as [|n]; [simpl in Hs; auto|].
        simpl in Hs. destruct Hs as (u & Hu & _).
        rewrite Object_values_leaf in Hu by done. destruct Hu.
Qed.

Lemma length_flat_map_le {A B} (f : A → list B) (l : list A) (m : nat) :
  (∀ x, In x l → (length (f x) ≤ m)%nat) →
  (length (flat_map f l) ≤ length l * m)%nat.
Proof.
  induction l as [|x l IH]; intros Hf; simpl; [lia|].
  rewrite length_app.
  pose proof (Hf x (or_introl eq_refl)).
  pose proof (IH (fun y Hy => Hf y (or_intror Hy))). lia.
Qed.

(** The number of leaves is bounded by the branching to the power of the
    budget, on cyclic stores too. *)
Lemma flatten_length (b d : nat) (v : value) :
  (1 ≤ b)%nat →
  (∀ u, (length (Object_values h u) ≤ b)%nat) →
  (length (flatten h v (Z.of_nat d)) ≤ b ^ d)%nat.
Proof.
  intros Hb Hbranch. revert v. induction d as [|d IH]; intros v.
  - change (Z.of_nat 0) with 0. rewrite flatten_zero. simpl. lia.
  - destruct (isFlattenable v) eqn:Hv.
    + rewrite flatten_succ by done.
      pose proof (length_flat_map_le (fun u => flatten h u (Z.of_nat d))
                    (Object_values h v) (b ^ d) (fun u _ => IH u)) as Hl.
      specialize (Hbranch v). simpl. nia.
    + rewrite flatten_leaf by done. simpl.
      pose proof (Nat.pow_nonzero b d ltac:(lia)). nia.
Qed.

(** A negative budget is a budget of zero. *)
Lemma flatten_clamp_budget (v : value) (depth : Z) :
  flatten h v depth = flatten h v (Z.of_nat (Z.to_nat depth)).
Proof.
  destruct (Z.le_gt_cases 0 depth) as [Hd|Hd]; [by rewrite Z2Nat.id|].
  replace (Z.to_nat depth) with O by lia. change (Z.of_nat 0) with 0.
  rewrite flatten_zero, flatten_unfold.
  by rewrite (proj2 (Z.leb_le depth 0)) by lia.
Qed.

Lemma flat_map_singleton {A} (l : list A) : flat_map (fun x => [x]) l = l.
Proof. induction l as [|x l IH]; simpl; congruence. Qed.

Lemma flattenObject_one (item : value) :
  flattenObject h item 1 = kept_within_one h item.
Proof.
  unfold flattenObject, kept_within_one. apply flat_map_ext. intros v.
  destruct (isFlattenable v) eqn:Hv.
  - change 1 with (Z.of_nat 1). rewrite flatten_succ by done.
    change (Z.of_nat 0) with 0.
    erewrite flat_map_ext; [apply flat_map_singleton|].
    intros u. apply flatten_zero.
  - by apply flatten_leaf.
Qed.

End Flatten.

(** C6: under a global search with [maxDepth: 1] an object item is left out
    whenever the matcher rejects every value kept within that budget, however
    well something nested deeper would match: a budget of zero stops the
    flattening and keeps the value met there, object or not, as one leaf. *)
Theorem C6_depth_one_ignores_deeper_values (h : heap) (item term : value)
    (data : list value) (o : SearchOptions) (cache : pathCache) :
  isFlattenable item = true →
  keys o = None →
  maxDepth o = Some 1 →
  (∀ v, In v (kept_within_one h item) →
        default (defaultMatcher h) (customMatch o) v term = false) →
  (∀ v, flatten h v 0 = [v])
  ∧ flattenObject h item 1 = kept_within_one h item
  ∧ ¬ In item (await (fst (searchData h data term o cache))).
Proof.
  intros Hobj Hkeys Hdepth Hnone.
  split; [apply flatten_zero|]. split; [apply flattenObject_one|].
  intros Hin.
  pose proof (searchData_filter h data term o cache) as E.
  apply (f_equal fst) in E. simpl in E. rewrite E in Hin.
  apply filter_with_In in Hin as [_ [cache0 Hm]].
  unfold item_pred, matchItem in Hm.
  rewrite Hobj, Hkeys, Hdepth in Hm. simpl in Hm.
  rewrite flattenObject_one in Hm.
  apply existsb_exists in Hm as (v & Hv & Hm).
  rewrite (Hnone v Hv) in Hm. done.
Qed.

Lemma C6_depth_one_ignores_deeper_values_witness :
  ¬ In (VRef 0)
      (await (fst (searchData nested3 [VRef 0] (VString "needle") (depth_option 1) ∅))).
Proof.
  refine (proj2 (proj2 (C6_depth_one_ignores_deeper_values
    nested3 (VRef 0) (VString "needle") [VRef 0] (depth_option 1) ∅ _ _ _ _))).
  - reflexivity.
  - reflexivity.
  - reflexivity.
  - intros v Hv. vm_compute in Hv. destruct Hv as [<-|[]]. vm_compute. reflexivity.
Defined.

(** The same item is found once the budget reaches the third level. *)
Example nested3_found_at_depth_two :
  fst (searchData nested3 [VRef 0] (VString "needle") (depth_option 2) ∅) = Plain [VRef 0]
  ∧ fst (searchData nested3 [VRef 0] (VString "needle") (depth_option 1) ∅) = Plain [].
Proof. split; vm_compute; reflexivity. Qed.

(** ** Cyclic data *)

Lemma filter_with_pure (pred : value → pathCache → bool * pathCache)
    (f : value → bool) (data : list value) (cache : pathCache) :
  (∀ x c, pred x c = (f x, c)) →
  filter_with pred data cache = (List.filter f data, cache).
Proof.
  intros Hpure. induction data as [|x data IH]; simpl; [done|].
  rewrite Hpure, IH. by destruct (f x).
Qed.

(** With default options an object item is judged by its flattened values
    alone, and the cache is left as it was. *)
Lemma default_search_pure (h : heap) (term item : value) (cache : pathCache) :
  item_pred h term no_options item cache =
  (if isFlattenable item
   then existsb (fun v => defaultMatcher h v term) (flattenObject h item DEFAULT_MAX_DEPTH)
   else defaultMatcher h item term, cache).
Proof. unfold item_pred, matchItem. simpl. by destruct (isFlattenable item). Qed.

Lemma selfref_reachable (w : value) :
  rtc (child selfref) (VRef 0) w → w = VRef 0 ∨ w = VString "test".
Proof.
  intros Hr. remember (VRef 0) as v eqn:Hv. revert Hv.
  induction Hr as [|v u w Hstep Hr IH]; intros ->; [by left|].
  unfold child in Hstep. vm_compute in Hstep.
  destruct Hstep as [<-|[<-|[]]].
  - inversion Hr as [|? u ? Hstep' _]; subst; [by right|].
    unfold child in Hstep'. vm_compute in Hstep'. destruct Hstep'.
  - by apply IH.
Qed.

(** C4, as stated, fails: the self-referential object is returned for the
    term "object", which its one acyclic value "test" does not contain; what
    matches is the object itself, kept as a leaf where the budget ends and
    read as "[object Object]". *)
Lemma C4_cyclic_leaf_matches :
  ¬ found_iff_acyclic_match selfref (VRef 0) (VString "object").
Proof.
  intros [Hfound _].
  destruct Hfound as (w & Hreach & Hacyclic & Hmatch).
  { vm_compute. by left. }
  apply selfref_reachable in Hreach as [-> | ->].
  - apply Hacyclic. apply tc_once. unfold child. vm_compute. right. by left.
  - vm_compute in Hmatch. discriminate.
Qed.

(** C4, amended: on every store, cyclic or not, [flatten] is total — its
    recursion is on a budget that strictly decreases, fuel equal to the
    budget is never exhausted, and the source's equation holds — and it
    yields at most [b ^ depth] leaves when no object has more than [b]
    values.  A search with default options therefore returns, and it
    returns an object item exactly when the default matcher accepts a leaf
    of its depth-10 flattening: a primitive reached in at most 11 property
    reads, or whatever value (the cyclic object itself included) is reached
    at the 11th, taken by its textual form. *)
Theorem C4_flatten_total_on_cycles (h : heap) (item term : value)
    (data : list value) (cache : pathCache) (b : nat) :
  isFlattenable item = true →
  (1 ≤ b)%nat →
  (∀ u, (length (Object_values h u) ≤ b)%nat) →
  (∀ v depth fuel, (Z.to_nat depth ≤ fuel)%nat →
     flatten_rec h fuel v depth = flatten h v depth)
  ∧ (∀ v depth, flatten h v depth =
       if (depth <=? 0) || negb (isFlattenable v) then [v]
       else flat_map (fun u => flatten h u (depth - 1)) (Object_values h v))
  ∧ (length (flattenObject h item DEFAULT_MAX_DEPTH) ≤ b ^ 11)%nat
  ∧ searchData h data term no_options cache =
      (Plain (List.filter (fun x => fst (item_pred h term no_options x ∅)) data), cache)
  ∧ (In item (await (fst (searchData h data term no_options cache))) ↔
     In item data ∧
     ∃ n w, (1 ≤ n ≤ 11)%nat ∧ steps h n item w
            ∧ (n = 11%nat ∨ isFlattenable w = false)
            ∧ defaultMatcher h w term = true)
  ∧ (∀ v depth, (length (flatten h v depth) ≤ b ^ Z.to_nat depth)%nat).
Proof.
  intros Hobj Hb Hbranch.
  assert (searchData h data term no_options cache =
      (Plain (List.filter (fun x => fst (item_pred h term no_options x ∅)) data), cache))
    as Hsearch.
  { unfold searchData. simpl. fold (item_pred h term no_options).
    rewrite (filter_with_pure _ (fun x => fst (item_pred h term no_options x ∅))); [done|].
    intros x c.
    change (item_pred h term no_options x c = (fst (item_pred h term no_options x ∅), c)).
    rewrite !default_search_pure. reflexivity. }
  split; [|split; [|split; [|split; [|split]]]];
    [| | | | | intros v depth; rewrite flatten_clamp_budget;
               by apply flatten_length].
  - intros v depth fuel Hfuel. unfold flatten. apply flatten_rec_fuel; lia.
  - apply flatten_unfold.
  - unfold flattenObject.
    pose proof (length_flat_map_le (fun v => flatten h v DEFAULT_MAX_DEPTH)
      (Object_values h item) (b ^ 10)
      (fun u _ => flatten_length h b 10 u Hb Hbranch)) as Hl.
    specialize (Hbranch item).
    change (b ^ 11)%nat with (b * b ^ 10)%nat. nia.
  - exact Hsearch.
  - rewrite Hsearch. simpl. rewrite filter_In, default_search_pure, Hobj. simpl.
    rewrite existsb_exists.
    split; intros [Hin Hex]; (split; [done|]).
    + destruct Hex as (w & Hw & Hm).
      unfold flattenObject in Hw. apply in_flat_map in Hw as (u & Hu & Hw).
      apply (flatten_leaves h 10) in Hw as (n & Hn & Hs & Hend).
      exists (S n), w. split; [lia|]. split; [simpl; eauto|].
      split; [|done]. destruct Hend as [->|?]; auto.
    + destruct Hex as (n & w & Hn & Hs & Hend & Hm).
      destruct n as [|n]; [lia|]. simpl in Hs. destruct Hs as (u & Hu & Hs).
      exists w. split; [|done].
      unfold flattenObject. apply in_flat_map. exists u. split; [done|].
      apply (flatten_leaves h 10). exists n. split; [lia|]. split; [done|].
      destruct Hend as [?|?]; [left; lia | by right].
Qed.

Lemma selfref_branching (u : value) : (length (Object_values selfref u) ≤ 2)%nat.
Proof.
  destruct u as [| | | | |l]; simpl; try lia.
  unfold selfref. destruct (decide (l = 0%nat)) as [->|Hne].
  - rewrite lookup_singleton_eq. simpl. lia.
  - rewrite lookup_singleton_ne by done. simpl. lia.
Qed.

Lemma C4_flatten_total_on_cycles_witness :
  searchData selfref [VRef 0] (VString "test") no_options ∅ =
  (Plain (List.filter (fun x => fst (item_pred selfref (VString "test") no_options x ∅))
                      [VRef 0]), ∅).
Proof.
  refine (proj1 (proj2 (proj2 (proj2 (C4_flatten_total_on_cycles
    selfref (VRef 0) (VString "test") [VRef 0] ∅ 2 _ _ selfref_branching))))).
  - reflexivity.
  - lia.
Defined.

(** The test of the repository: the cyclic item is found for "test". *)
Example selfref_found :
  fst (searchData selfref [VRef 0] (VString "test") no_options ∅) = Plain [VRef 0]
  ∧ length (flattenObject selfref (VRef 0) DEFAULT_MAX_DEPTH) = 12%nat.
Proof. split; vm_compute; reflexivity. Qed.

(** ** The path cache *)

Lemma grows_refl (c : pathCache) : grows c c.
Proof. split; [done | auto]. Qed.

Lemma grows_trans (c1 c2 c3 : pathCache) : grows c1 c2 → grows c2 c3 → grows c1 c3.
Proof. intros [S1 K1] [S2 K2]. split; [by etrans | auto]. Qed.

Lemma grows_insert (c : pathCache) (p : string) :
  c !! p = None → grows c (<[p := [p]]> c).
Proof.
  intros Hnone. split; [by apply insert_subseteq|].
  intros Hok q segs. rewrite lookup_insert.
  case_decide as Hq; [subst; congruence | apply Hok].
Qed.

Section CacheInvariant.
Context (h : heap).

Lemma path_values_grows (item : value) (path : string) (maxDepth : Z)
    (flag : bool) (cache : pathCache) :
  grows cache (snd (path_values h item path maxDepth flag cache)).
Proof.
  unfold path_values. destruct flag; [|apply grows_refl].
  destruct (cache !! path) eqn:E; simpl; [apply grows_refl | by apply grows_insert].
Qed.

Lemma some_path_grows (item term : value) (ks : list string) (m : MatchFunction)
    (maxDepth : Z) (flag : bool) (cache : pathCache) :
  grows cache (snd (some_path h item term ks m maxDepth flag cache)).
Proof.
  revert cache. induction ks as [|path ks IH]; intros cache; simpl; [apply grows_refl|].
  pose proof (path_values_grows item path maxDepth flag cache) as Hg.
  destruct (path_values h item path maxDepth flag cache) as [values cache'].
  simpl in Hg. destruct (existsb _ values); [done|].
  eapply grows_trans; [exact Hg | apply IH].
Qed.

Lemma matchItem_grows (item term : value) (ks : option (list string))
    (m : MatchFunction) (maxDepth : Z) (flag : bool) (cache : pathCache) :
  grows cache (snd (matchItem h item term ks m maxDepth flag cache)).
Proof.
  unfold matchItem. destruct (negb (isFlattenable item)); [apply grows_refl|].
  destruct ks as [[|path ks]|]; try apply grows_refl.
  apply some_path_grows.
Qed.

Lemma filter_with_grows (pred : value → pathCache → bool * pathCache)
    (data : list value) (cache : pathCache) :
  (∀ x c, grows c (snd (pred x c))) →
  grows cache (snd (filter_with pred data cache)).
Proof.
  intros Hpred. revert cache.
  induction data as [|x data IH]; intros cache; simpl; [apply grows_refl|].
  pose proof (Hpred x cache) as Hg.
  destruct (pred x cache) as [keep cache1]. simpl in Hg.
  specialize (IH cache1).
  destruct (filter_with pred data cache1) as [kept cache2]. simpl in *.
  by eapply grows_trans.
Qed.

Lemma searchData_grows (data : list value) (term : value) (o : SearchOptions)
    (cache : pathCache) :
  grows cache (snd (searchData h data term o cache)).
Proof.
  pose proof (searchData_filter h data term o cache) as E.
  apply (f_equal snd) in E. simpl in E. rewrite E.
  apply filter_with_grows. intros x c. apply matchItem_grows.
Qed.

End CacheInvariant.

Lemma session_grows (calls : list call) (cache : pathCache) :
  grows cache (session calls cache).
Proof.
  revert cache. induction calls as [|c calls IH]; intros cache; simpl; [apply grows_refl|].
  eapply grows_trans; [apply searchData_grows | apply IH].
Qed.

Lemma split_length (s : string) : length (split "." s) = S (dots s).
Proof.
  unfold dots. induction s as [|c s IH]; [done|].
  cbn [split String.list_ascii_of_string List.filter].
  destruct (Ascii.eqb c "."); cbn [length]; [by rewrite IH|].
  destruct (split "." s); cbn [length] in *; lia.
Qed.

Lemma split_no_dots (s : string) : dots s = O → split "." s = [s].
Proof.
  unfold dots. induction s as [|c s IH]; [done|].
  cbn [split String.list_ascii_of_string List.filter].
  destruct (Ascii.eqb c "."); cbn [length]; [discriminate|].
  intros Hd. by rewrite (IH Hd).
Qed.

(** C8: in any run of searches from the empty cache every entry maps a path
    to the singleton of that same unsplit path; later calls keep every entry
    as it is, so the cache only grows; and a hit hands the whole path string
    to [getValueByPath], which is the split form only of a path without a
    dot.  No function on the way from [searchData] refers to [parsePath]. *)
Theorem C8_cache_entries_are_unsplit_paths (calls more : list call) :
  let cache := session calls ∅ in
  cache_ok cache
  ∧ cache ⊆ session more cache
  ∧ (∀ p segs, cache !! p = Some segs → session more cache !! p = Some segs)
  ∧ (∀ p segs, cache !! p = Some segs →
       ∀ h item maxDepth,
         path_values h item p maxDepth true cache
         = (flat_locals h [getValueByPath h item p], cache))
  ∧ (∀ p segs, cache !! p = Some segs → segs = split "." p → dots p = O).
Proof.
  intros cache.
  assert (cache_ok cache) as Hok.
  { apply (session_grows calls ∅). intros p segs. by rewrite lookup_empty. }
  destruct (session_grows more cache) as [Hsub _].
  repeat split.
  - exact Hok.
  - exact Hsub.
  - intros p segs Hp. by eapply lookup_weaken.
  - intros p segs Hp h item maxDepth. unfold path_values.
    rewrite Hp. by rewrite (Hok p segs Hp).
  - intros p segs Hp Hsplit. apply Hok in Hp. subst segs.
    pose proof (split_length p) as Hl. rewrite <- Hsplit in Hl. simpl in Hl. lia.
Qed.

(** The cache after the two searches of the repository's cache test. *)
Example session_two_searches :
  let h : heap :=
    {[ 0%nat := Obj [("category", VRef 1)]; 1%nat := Obj [("sub", VString "phone")] ]} in
  let o := set_keys (Some ["category.sub"; "specs.features"]) no_options in
  session [ {| call_heap := h; call_data := [VRef 0]; call_term := VString "tablet";
               call_options := o |};
            {| call_heap := h; call_data := [VRef 0]; call_term := VString "phone";
               call_options := o |} ] ∅
  = {[ "category.sub" := ["category.sub"]; "specs.features" := ["specs.features"] ]}.
Proof. vm_compute. reflexivity. Qed.

(** ** The regular-expression matcher *)

(** C5: the matcher built by [createRegExpMatcher] is a total boolean
    function on every engine, value, flag string and term: when
    [new RegExp(term, flags)] succeeds it answers what [test] answers on the
    text of the value, and when construction throws it answers [false].  On
    the pattern fragment modelled here, ["\d+"] with flag [i] matches
    ["Hello123"], and the malformed ["["] with the default flags gives
    [false]. *)
Theorem C5_regexp_matcher_total :
  (∀ (E : RegExpEngine) (h : heap) (flags : option string) (v term : value),
     createRegExpMatcher h flags v term =
     match RegExp_new (pattern_source h term) (default "i" flags) with
     | Return re => RegExp_test re (ToString h v)
     | Throw _ => false
     end)
  ∧ createRegExpMatcher (engine := Fragment.engine) ∅ (Some "i")
      (VString "Hello123") (VString "\d+") = true
  ∧ RegExp_new (RegExpEngine := Fragment.engine) "[" "i" = Throw SyntaxError
  ∧ createRegExpMatcher (engine := Fragment.engine) ∅ None
      (VString "test") (VString "[") = false.
Proof.
  split; [|split; [|split]]; try (vm_compute; reflexivity).
  intros E h flags v term.
  unfold createRegExpMatcher, createRegExpMatcher_try, try_catch.
  by destruct (RegExp_new _ _).
Qed.

(** The remaining cases of the repository's matcher tests, and flags. *)
Example regexp_matcher_cases :
  let m := createRegExpMatcher (engine := Fragment.engine) ∅ in
  m (Some "i") (VString "HELLO") (VString "^hello$") = true
  ∧ m (Some "i") (VString "world") (VString "^hello$") = false
  ∧ m (Some "") (VString "HELLO") (VString "^hello$") = false
  ∧ m (Some "ii") (VString "HELLO") (VString "^hello$") = false
  ∧ m None (VNumber 128) (VString "^12") = true.
Proof. vm_compute. repeat split. Qed.

(** ** Documented paths the resolver does not follow *)

(** C2: on [{orders: [{item: "a"}, {item: "b"}]}] the path ["orders[].item"]
    resolves to no value at all, not to ["a"; "b"]: after the marker the
    array itself is asked for its property [item].  Only a second marker,
    ["orders[].item[]"], reaches the elements. *)
Theorem C2_marker_then_plain_segment (depth : Z) :
  getNestedValue orders (VRef 0) "orders[].item" depth = []
  ∧ getNestedValue orders (VRef 0) "orders[].item[]" DEFAULT_MAX_DEPTH
    = [VString "a"; VString "b"]
  ∧ fst (searchData orders [VRef 0] (VString "a") (keys_option ["orders[].item"] false) ∅)
    = Plain [].
Proof. repeat split; vm_compute; reflexivity. Qed.

(** ** Cached and uncached resolution *)

(** C1 fails on the code: with the documented key ["tags[]"] the second of
    two equal items is resolved through the cache by [getValueByPath], which
    yields [undefined] where [getNestedValue] yields ["a"]; one search keeps
    one item with the cache and both without it, and a second search with
    the same keys keeps none. *)
Theorem C1_cache_changes_values :
  let warm : pathCache := {[ "tags[]" := ["tags[]"] ]} in
  path_values tagged (VRef 1) "tags[]" DEFAULT_MAX_DEPTH true warm = ([VUndefined], warm)
  ∧ path_values tagged (VRef 1) "tags[]" DEFAULT_MAX_DEPTH false warm = ([VString "a"], warm)
  ∧ searchData tagged [VRef 0; VRef 1] (VString "a") (keys_option ["tags[]"] true) ∅
    = (Plain [VRef 0], warm)
  ∧ searchData tagged [VRef 0; VRef 1] (VString "a") (keys_option ["tags[]"] false) ∅
    = (Plain [VRef 0; VRef 1], ∅)
  ∧ fst (searchData tagged [VRef 0; VRef 1] (VString "a") (keys_option ["tags[]"] true) warm)
    = Plain []
  ∧ fst (searchData tagged [VRef 0; VRef 1] (VString "a") (keys_option ["tags[]"] false) warm)
    = Plain [VRef 0; VRef 1].
Proof. repeat split; vm_compute; reflexivity. Qed.

(** ** Failing lookups *)

Section Failures.
Context (h : heap).

(** A [return] from inside the loop of [getNestedValue] returns nothing. *)
Lemma getNestedValue_loop_return (segments : list string) (current : local)
    (vs : list value) :
  getNestedValue_loop h segments current = Return (inl vs) → vs = [].
Proof.
  revert current.
  induction segments as [|segment rest IH]; intros current; simpl;
    unfold mret, outcome_ret.
  - discriminate.
  - destruct (endsWith segment "[]").
    + destruct (isArray h current) as [es|].
      * destruct (flatMap_get h _ es) as [expanded|e]; simpl; [apply IH | discriminate].
      * destruct (get_current h current _) as [v|e]; simpl; [|discriminate].
        destruct (array_at h v); [apply IH | congruence].
    + destruct (get_current h current segment) as [v|e]; simpl; [|discriminate].
      case_bool_decide; [congruence|].
      destruct (array_at h v); apply IH.
Qed.

(** [getNestedValue] returns a list on every input, never holding
    [undefined]; it is empty when the traversal throws. *)
Lemma getNestedValue_defined (obj : value) (path : string) (depth : Z) :
  ¬ In VUndefined (getNestedValue h obj path depth)
  ∧ (∀ e, getNestedValue_try h obj path depth = Throw e →
          getNestedValue h obj path depth = []).
Proof.
  unfold getNestedValue. split.
  - destruct (getNestedValue_try h obj path depth) as [[vs|results]|e] eqn:E; simpl.
    + unfold getNestedValue_try in E.
      destruct (getNestedValue_loop h _ _) as [[vs'|c]|e] eqn:El; simpl in E;
        unfold mret, outcome_ret in E; [| |discriminate].
      * apply getNestedValue_loop_return in El. subst.
        injection E as <-. simpl. tauto.
      * destruct c as [v|es]; [destruct (array_at h v)|]; discriminate.
    + intros Hin. apply filter_In in Hin as [_ Hin].
      by rewrite bool_decide_eq_true_2 in Hin.
    + auto.
  - intros e ->. reflexivity.
Qed.

(** A plain first segment naming no property resolves to nothing. *)
Lemma getNestedValue_missing (obj : value) (segment : string) (depth : Z) :
  dots segment = O → endsWith segment "[]" = false →
  get h obj segment = Return VUndefined →
  getNestedValue h obj segment depth = [].
Proof.
  intros Hdots Hplain Hget.
  unfold getNestedValue, getNestedValue_try.
  rewrite (split_no_dots segment Hdots).
  simpl. rewrite Hplain. simpl. rewrite Hget. simpl. reflexivity.
Qed.

(** [getValueByPath] also returns on every input, but with [undefined]
    for a failed lookup or a caught exception. *)
Lemma getValueByPath_caught (obj : value) (path : string) (e : exn) :
  getValueByPath_try h obj path = Throw e →
  getValueByPath h obj path = Held VUndefined.
Proof. unfold getValueByPath. by intros ->. Qed.

(** On a warm cache that [undefined] becomes a value offered to the
    matcher. *)
Lemma path_values_cached_undefined (item : value) (path : string) (depth : Z)
    (cache : pathCache) :
  cache !! path = Some [path] →
  getValueByPath h item path = Held VUndefined →
  path_values h item path depth true cache = ([VUndefined], cache).
Proof. intros Hhit Hval. unfold path_values. rewrite Hhit. simpl. by rewrite Hval. Qed.

End Failures.

(** C7 fails on the cached route: for the missing property [b] the first item
    goes through [getNestedValue] and contributes nothing, the second goes
    through [getValueByPath] and contributes the value [undefined], which
    the default matcher reads as the text "undefined"; the search for that
    text returns the second item.  Without the cache it returns none. *)
Theorem C7_cached_lookup_yields_undefined :
  let warm : pathCache := {[ "b" := ["b"] ]} in
  getNestedValue pair (VRef 1) "b" DEFAULT_MAX_DEPTH = []
  ∧ getValueByPath pair (VRef 1) "b" = Held VUndefined
  ∧ getValueByPath pair VNull "b" = Held VUndefined
  ∧ path_values pair (VRef 1) "b" DEFAULT_MAX_DEPTH true warm = ([VUndefined], warm)
  ∧ fst (searchData pair [VRef 0; VRef 1] (VString "undefined") (keys_option ["b"] true) ∅)
    = Plain [VRef 1]
  ∧ fst (searchData pair [VRef 0; VRef 1] (VString "undefined") (keys_option ["b"] false) ∅)
    = Plain [].
Proof. repeat split; vm_compute; reflexivity. Qed.

(** * Further properties of the search *)

(** ** Shape of the result *)

Lemma filter_with_sublist (pred : value → pathCache → bool * pathCache)
    (data : list value) (cache : pathCache) :
  sublist (fst (filter_with pred data cache)) data.
Proof.
  revert cache. induction data as [|x data IH]; intros cache; simpl; [constructor|].
  destruct (pred x cache) as [keep cache1]. specialize (IH cache1).
  destruct (filter_with pred data cache1) as [kept cache2]. simpl in *.
  destruct keep; by constructor.
Qed.

(** X1: in either mode and from any cache, the awaited result is the
    collection with some items left out: nothing is added, repeated or
    reordered. *)
Theorem searchData_sublist (h : heap) (data : list value) (term : value)
    (o : SearchOptions) (cache : pathCache) :
  sublist (await (fst (searchData h data term o cache))) data.
Proof.
  pose proof (searchData_filter h data term o cache) as E.
  apply (f_equal fst) in E. simpl in E. rewrite E.
  apply filter_with_sublist.
Qed.

(** X2: up to and including 1000 items the [parallel] flag changes nothing:
    the call returns a plain array at once, the one a serial call returns. *)
Theorem searchData_at_threshold (h : heap) (data : list value) (term : value)
    (o : SearchOptions) (cache : pathCache) :
  (length data ≤ 1000)%nat →
  searchData h data term o cache
  = (Plain (fst (filter_with (item_pred h term o) data cache)),
     snd (filter_with (item_pred h term o) data cache)).
Proof.
  intros Hlen. unfold searchData. fold (item_pred h term o).
  assert ((1000 <? length data)%nat = false) as -> by (apply Nat.ltb_ge; lia).
  rewrite andb_false_r. by destruct (filter_with _ _ _).
Qed.

Lemma searchData_at_threshold_witness :
  let data := map (fun i => VNumber (Z.of_nat i)) (seq 0 1000) in
  let o := set_parallel (Some true) no_options in
  (length data ≤ 1000)%nat ∧
  searchData ∅ data (VString "99") o ∅
  = (Plain (fst (filter_with (item_pred ∅ (VString "99") o) data ∅)),
     snd (filter_with (item_pred ∅ (VString "99") o) data ∅)).
Proof.
  intros data o.
  assert (length data ≤ 1000)%nat as Hlen by (vm_compute; lia).
  split; [exact Hlen|].
  exact (searchData_at_threshold ∅ data (VString "99") o ∅ Hlen).
Defined.

(** X3: searching a concatenation is searching the first part and then the
    second from the cache the first search left; the results concatenate. *)
Theorem searchData_app (h : heap) (l1 l2 : list value) (term : value)
    (o : SearchOptions) (cache : pathCache) :
  let r1 := searchData h l1 term o cache in
  let r2 := searchData h l2 term o (snd r1) in
  await (fst (searchData h (l1 ++ l2) term o cache)) = await (fst r1) ++ await (fst r2)
  ∧ snd (searchData h (l1 ++ l2) term o cache) = snd r2.
Proof.
  intros r1 r2.
  pose proof (searchData_filter h (l1 ++ l2) term o cache) as E.
  pose proof (searchData_filter h l1 term o cache) as E1.
  pose proof (searchData_filter h l2 term o (snd r1)) as E2.
  fold r1 in E1. fold r2 in E2.
  rewrite filter_with_app in E.
  destruct (filter_with (item_pred h term o) l1 cache) as [k1 c1].
  injection E1 as Ek1 Ec1. rewrite Ec1 in E2.
  destruct (filter_with (item_pred h term o) l2 c1) as [k2 c2].
  injection E2 as Ek2 Ec2. injection E as Ek Ec.
  split; congruence.
Qed.

(** ** Searches that leave the cache alone *)

Lemma some_path_uncached (h : heap) (item term : value) (ks : list string)
    (m : MatchFunction) (depth : Z) (cache : pathCache) :
  some_path h item term ks m depth false cache
  = (existsb (fun path => existsb (fun v => m v term) (getNestedValue h item path depth)) ks,
     cache).
Proof.
  induction ks as [|path ks IH]; simpl; [done|].
  destruct (existsb _ (getNestedValue h item path depth)); [done|]. by rewrite IH.
Qed.

Lemma item_pred_cache_free (h : heap) (term : value) (o : SearchOptions)
    (item : value) (cache : pathCache) :
  cache_free o → item_pred h term o item cache = (pure_match h term o item, cache).
Proof.
  intros Hfree. unfold item_pred, pure_match, matchItem.
  destruct (negb (isFlattenable item)); [done|].
  destruct (keys o) as [[|path ks]|] eqn:Hk; try done.
  destruct Hfree as [?|[?|Hoff]]; try congruence.
  rewrite Hoff. simpl default. apply some_path_uncached.
Qed.

Lemma cache_free_result (h : heap) (data : list value) (term : value)
    (o : SearchOptions) (cache : pathCache) :
  cache_free o →
  await (fst (searchData h data term o cache)) = List.filter (pure_match h term o) data.
Proof.
  intros Hfree.
  pose proof (searchData_filter h data term o cache) as E.
  rewrite (filter_with_pure _ (pure_match h term o)) in E
    by (intros; by apply item_pred_cache_free).
  by injection E.
Qed.

(** X4: with the cache switched off, or with no keys, a search is a pure
    filter: the cache comes back untouched and plays no part in the result,
    which keeps exactly the items one of whose values, resolved by
    [getNestedValue] at some key or flattened, the matcher accepts. *)
Theorem searchData_cache_free (h : heap) (data : list value) (term : value)
    (o : SearchOptions) (cache : pathCache) :
  cache_free o →
  await (fst (searchData h data term o cache)) = List.filter (pure_match h term o) data
  ∧ snd (searchData h data term o cache) = cache.
Proof.
  intros Hfree. split; [by apply cache_free_result|].
  pose proof (searchData_filter h data term o cache) as E.
  rewrite (filter_with_pure _ (pure_match h term o)) in E
    by (intros; by apply item_pred_cache_free).
  by injection E.
Qed.

Lemma searchData_cache_free_witness :
  let o := keys_option ["tags[]"] false in
  cache_free o ∧
  await (fst (searchData tagged [VRef 0; VRef 1] (VString "a") o {[ "tags[]" := ["x"] ]}))
  = List.filter (pure_match tagged (VString "a") o) [VRef 0; VRef 1].
Proof.
  intros o.
  assert (cache_free o) as Hfree by (right; right; reflexivity).
  split; [exact Hfree|].
  exact (proj1 (searchData_cache_free tagged [VRef 0; VRef 1] (VString "a") o _ Hfree)).
Defined.

Lemma filter_idem {A} (f : A → bool) (l : list A) :
  List.filter f (List.filter f l) = List.filter f l.
Proof.
  induction l as [|x l IH]; simpl; [done|].
  destruct (f x) eqn:E; simpl; [rewrite E; by f_equal | done].
Qed.

(** X5: a cache-free search applied to its own result returns that result
    unchanged, whatever the cache then holds: whether an item matches does
    not depend on the items around it. *)
Theorem searchData_idempotent (h : heap) (data : list value) (term : value)
    (o : SearchOptions) (cache cache' : pathCache) :
  cache_free o →
  let found := await (fst (searchData h data term o cache)) in
  await (fst (searchData h found term o cache')) = found.
Proof.
  intros Hfree found. subst found.
  rewrite (cache_free_result h _ term o cache' Hfree).
  rewrite (cache_free_result h data term o cache Hfree).
  apply filter_idem.
Qed.

Lemma searchData_idempotent_witness :
  let found := await (fst (searchData nested3 [VRef 0; VRef 1; VRef 2] (VString "needle")
                             (depth_option 1) ∅)) in
  cache_free (depth_option 1) ∧
  await (fst (searchData nested3 found (VString "needle") (depth_option 1) ∅)) = found.
Proof.
  intros found.
  assert (cache_free (depth_option 1)) as Hfree by (left; reflexivity).
  split; [exact Hfree|].
  exact (searchData_idempotent nested3 [VRef 0; VRef 1; VRef 2] (VString "needle")
           (depth_option 1) ∅ ∅ Hfree).
Defined.

Lemma existsb_impl {A} (f g : A → bool) (l : list A) :
  (∀ x, f x = true → g x = true) → existsb f l = true → existsb g l = true.
Proof.
  intros Hfg. rewrite !existsb_exists. intros (x & Hx & Hf). eauto.
Qed.

Lemma filter_sublist_impl {A} (f g : A → bool) (l : list A) :
  (∀ x, f x = true → g x = true) → sublist (List.filter f l) (List.filter g l).
Proof.
  intros Hfg. induction l as [|x l IH]; simpl; [constructor|].
  destruct (f x) eqn:Ef.
  - rewrite (Hfg x Ef). by constructor.
  - destruct (g x); [by constructor | done].
Qed.

(** X6: a cache-free search is monotone in the matcher: replacing the
    matcher by one that accepts at least the same values for the term only
    adds items to the result. *)
Theorem searchData_matcher_monotone (h : heap) (data : list value) (term : value)
    (o : SearchOptions) (m1 m2 : MatchFunction) (cache : pathCache) :
  cache_free o →
  (∀ v, m1 v term = true → m2 v term = true) →
  sublist (await (fst (searchData h data term (set_customMatch m1 o) cache)))
          (await (fst (searchData h data term (set_customMatch m2 o) cache))).
Proof.
  intros Hfree Hm.
  rewrite (cache_free_result h data term (set_customMatch m1 o) cache Hfree).
  rewrite (cache_free_result h data term (set_customMatch m2 o) cache Hfree).
  apply filter_sublist_impl. intros item. unfold pure_match. simpl.
  destruct (negb (isFlattenable item)); [apply Hm|].
  destruct (keys o) as [[|path ks]|]; try (apply existsb_impl; exact Hm).
  apply existsb_impl. intros p. apply existsb_impl. exact Hm.
Qed.

Lemma includes_refl (s : string) : includes s s = true.
Proof.
  assert (String.prefix s s = true) as Hp
    by (induction s as [|c s IH]; simpl; [done | by destruct (ascii_dec c c)]).
  destruct s; simpl in *; [done | by rewrite Hp].
Qed.

(** The strict matcher accepts only what the default matcher accepts. *)
Lemma exactMatcher_defaultMatcher (h : heap) (v term : value) :
  exactMatcher v term = true → defaultMatcher h v term = true.
Proof.
  unfold exactMatcher, strict_eq. intros ->%bool_decide_eq_true.
  unfold defaultMatcher. apply includes_refl.
Qed.

Lemma searchData_matcher_monotone_witness :
  let h : heap := {[ 0%nat := Obj [("n", VNumber 123)]; 1%nat := Obj [("n", VNumber 12)] ]} in
  sublist
    (await (fst (searchData h [VRef 0; VRef 1] (VNumber 12)
                   (set_customMatch exactMatcher no_options) ∅)))
    (await (fst (searchData h [VRef 0; VRef 1] (VNumber 12)
                   (set_customMatch (defaultMatcher h) no_options) ∅))).
Proof.
  intros h.
  apply (searchData_matcher_monotone h [VRef 0; VRef 1] (VNumber 12) no_options
           exactMatcher (defaultMatcher h) ∅).
  - left. reflexivity.
  - intros v. apply exactMatcher_defaultMatcher.
Defined.

(** ** Items that are not objects *)

(** X7: an item that is not an object ([null], [undefined], a number, a
    string, a boolean) is handed to the matcher as it is; on a collection of
    such items the keys, the depth and the cache play no part and the cache
    comes back untouched. *)
Theorem searchData_primitives (h : heap) (data : list value) (term : value)
    (o : SearchOptions) (cache : pathCache) :
  Forall (fun item => isFlattenable item = false) data →
  await (fst (searchData h data term o cache))
  = List.filter (fun item => default (defaultMatcher h) (customMatch o) item term) data
  ∧ snd (searchData h data term o cache) = cache.
Proof.
  intros Hprim.
  pose proof (searchData_filter h data term o cache) as E.
  assert (filter_with (item_pred h term o) data cache
          = (List.filter (fun item => default (defaultMatcher h) (customMatch o) item term) data,
             cache)) as Hf.
  { clear E. induction Hprim as [|item data Hitem _ IH]; simpl; [done|].
    unfold item_pred at 1, matchItem. rewrite Hitem. simpl. rewrite IH.
    by destruct (default _ _ item term). }
  rewrite Hf in E. by injection E.
Qed.

Lemma searchData_primitives_witness :
  let data := [VNull; VUndefined; VNumber 123; VString "text"; VBool true] in
  let o := keys_option ["a.b"; "c[]"] true in
  Forall (fun item => isFlattenable item = false) data ∧
  await (fst (searchData ∅ data (VString "u") o ∅))
  = List.filter (fun item => default (defaultMatcher ∅) (customMatch o) item (VString "u")) data.
Proof.
  intros data o.
  assert (Forall (fun item => isFlattenable item = false) data) as Hprim
    by (repeat constructor).
  split; [exact Hprim|].
  exact (proj1 (searchData_primitives ∅ data (VString "u") o ∅ Hprim)).
Defined.

(** ** A matcher that accepts nothing *)

Lemma some_path_rejected (h : heap) (item term : value) (ks : list string)
    (m : MatchFunction) (depth : Z) (flag : bool) (cache : pathCache) :
  (∀ v, m v term = false) →
  fst (some_path h item term ks m depth flag cache) = false.
Proof.
  intros Hm. revert cache. induction ks as [|path ks IH]; intros cache; simpl; [done|].
  destruct (path_values h item path depth flag cache) as [values cache'].
  assert (existsb (fun v => m v term) values = false) as ->.
  { apply not_true_is_false. intros (v & _ & Hv)%existsb_exists. by rewrite Hm in Hv. }
  apply IH.
Qed.

(** X8: when the pattern or the flags are malformed, a search with the
    regular-expression matcher returns no item on any collection, in any
    mode, with or without keys and cache; the exception stays inside the
    matcher. *)
Theorem searchData_malformed_pattern (E : RegExpEngine) (h : heap)
    (data : list value) (term : value) (flags : option string) (e : exn)
    (o : SearchOptions) (cache : pathCache) :
  RegExp_new (pattern_source h term) (default "i" flags) = Throw e →
  await (fst (searchData h data term (set_customMatch (createRegExpMatcher h flags) o) cache))
  = [].
Proof.
  intros Hbad.
  assert (∀ v, createRegExpMatcher h flags v term = false) as Hm.
  { intros v. unfold createRegExpMatcher, createRegExpMatcher_try. by rewrite Hbad. }
  set (o' := set_customMatch (createRegExpMatcher h flags) o).
  destruct (await (fst (searchData h data term o' cache))) as [|x found] eqn:Ef; [done|].
  exfalso.
  pose proof (searchData_filter h data term o' cache) as Es.
  apply (f_equal fst) in Es. simpl in Es. rewrite Ef in Es.
  assert (In x (fst (filter_with (item_pred h term o') data cache))) as Hin
    by (rewrite <- Es; by left).
  apply filter_with_In in Hin as [_ [cache0 Hx]].
  unfold item_pred, matchItem in Hx. subst o'. unfold set_customMatch in Hx.
  cbn [keys customMatch maxDepth enablePathCache from_option id] in Hx.
  destruct (negb (isFlattenable x)); cbn [fst] in Hx; [by rewrite Hm in Hx|].
  assert (∀ l, existsb (fun v => createRegExpMatcher h flags v term) l = false) as Hex.
  { intros l. apply not_true_is_false. intros (v & _ & Hv)%existsb_exists.
    by rewrite Hm in Hv. }
  destruct (keys o) as [[|path ks]|]; cbn [fst] in Hx; try (by rewrite Hex in Hx).
  rewrite (some_path_rejected h x term (path :: ks) _ _ _ cache0 Hm) in Hx. done.
Qed.

Lemma searchData_malformed_pattern_witness :
  await (fst (searchData orders [VRef 0; VRef 2; VString "["] (VString "[")
                (set_customMatch (createRegExpMatcher (engine := Fragment.engine) orders None)
                                 (keys_option ["item"] true)) ∅))
  = [].
Proof.
  apply (searchData_malformed_pattern Fragment.engine orders _ (VString "[") None SyntaxError).
  vm_compute. reflexivity.
Defined.

(** ** What the cache may hold *)

Lemma dom_step (A B C K : gset string) (p : string) :
  B ⊆ A ∪ {[ p ]} → C ⊆ B ∪ K → C ⊆ A ∪ ({[ p ]} ∪ K).
Proof.
  intros HB HC x Hx. apply HC in Hx. rewrite !elem_of_union in *.
  destruct Hx as [Hx|Hx]; [|auto].
  apply HB in Hx. rewrite elem_of_union in Hx. tauto.
Qed.

Lemma dom_chain (A B C K : gset string) :
  B ⊆ A ∪ K → C ⊆ B ∪ K → C ⊆ A ∪ K.
Proof.
  intros HB HC x Hx. apply HC in Hx. rewrite !elem_of_union in *.
  destruct Hx as [Hx|Hx]; [|auto].
  apply HB in Hx. rewrite elem_of_union in Hx. tauto.
Qed.

Lemma path_values_dom (h : heap) (item : value) (path : string) (depth : Z)
    (flag : bool) (cache : pathCache) :
  dom (snd (path_values h item path depth flag cache)) ⊆ dom cache ∪ {[ path ]}.
Proof.
  unfold path_values. destruct flag; [|apply union_subseteq_l].
  destruct (cache !! path); simpl; [apply union_subseteq_l|].
  rewrite dom_insert_L. by rewrite (comm_L (∪)).
Qed.

Lemma some_path_dom (h : heap) (item term : value) (ks : list string)
    (m : MatchFunction) (depth : Z) (flag : bool) (cache : pathCache) :
  dom (snd (some_path h item term ks m depth flag cache)) ⊆ dom cache ∪ list_to_set ks.
Proof.
  revert cache. induction ks as [|path ks IH]; intros cache; simpl;
    [apply union_subseteq_l|].
  pose proof (path_values_dom h item path depth flag cache) as Hd.
  destruct (path_values h item path depth flag cache) as [values cache']. simpl in Hd.
  destruct (existsb _ values); simpl.
  - apply (dom_step _ _ _ _ _ Hd). apply union_subseteq_l.
  - apply (dom_step _ _ _ _ _ Hd). apply IH.
Qed.

Lemma filter_with_dom (pred : value → pathCache → bool * pathCache)
    (K : gset string) (data : list value) (cache : pathCache) :
  (∀ x c, dom (snd (pred x c)) ⊆ dom c ∪ K) →
  dom (snd (filter_with pred data cache)) ⊆ dom cache ∪ K.
Proof.
  intros Hpred. revert cache.
  induction data as [|x data IH]; intros cache; simpl; [apply union_subseteq_l|].
  pose proof (Hpred x cache) as Hd.
  destruct (pred x cache) as [keep cache1]. simpl in Hd.
  specialize (IH cache1).
  destruct (filter_with pred data cache1) as [kept cache2]. simpl in *.
  by apply (dom_chain _ _ _ _ Hd).
Qed.

(** X9: a search stores nothing in the cache but the path strings listed in
    its [keys]: the paths cached afterwards are those cached before and, at
    most, those keys. *)
Theorem searchData_cache_dom (h : heap) (data : list value) (term : value)
    (o : SearchOptions) (cache : pathCache) :
  dom (snd (searchData h data term o cache))
  ⊆ dom cache ∪ list_to_set (default [] (keys o)).
Proof.
  pose proof (searchData_filter h data term o cache) as E.
  apply (f_equal snd) in E. simpl in E. rewrite E.
  apply filter_with_dom. intros x c. unfold item_pred, matchItem.
  destruct (negb (isFlattenable x)); [apply union_subseteq_l|].
  destruct (keys o) as [[|path ks]|]; simpl; try apply union_subseteq_l.
  apply (some_path_dom h x term (path :: ks)).
Qed.

(** ** The default matcher *)

Lemma prefix_spec (needle hay : string) :
  String.prefix needle hay = true ↔ ∃ post, hay = needle +:+ post.
Proof.
  revert hay. induction needle as [|c needle IH]; intros hay; simpl.
  - destruct hay; split; eauto.
  - destruct hay as [|c' hay]; simpl.
    + split; [done | by intros [post ?]].
    + destruct (ascii_dec c c') as [->|Hne].
      * rewrite IH. split; intros [post E]; exists post.
        -- rewrite E. reflexivity.
        -- change (String c' hay = String c' (needle +:+ post)) in E. congruence.
      * split; [done|]. intros [post E].
        change (String c' hay = String c (needle +:+ post)) in E. congruence.
Qed.

Lemma includes_unfold (hay needle : string) :
  includes hay needle =
  String.prefix needle hay ||
  match hay with
  | EmptyString => false
  | String _ rest => includes rest needle
  end.
Proof. by destruct hay. Qed.

Lemma includes_spec (hay needle : string) :
  includes hay needle = true ↔ ∃ pre post, hay = pre +:+ needle +:+ post.
Proof.
  split.
  - induction hay as [|c hay IH]; rewrite includes_unfold.
    + rewrite orb_false_r. intros [post E]%prefix_spec. by exists "", post.
    + intros [[post E]%prefix_spec | Hin]%orb_true_iff.
      * by exists "", post.
      * destruct (IH Hin) as (pre & post & E). exists (String c pre), post.
        rewrite E. reflexivity.
  - intros (pre & post & ->). induction pre as [|c pre IH]; rewrite includes_unfold.
    + apply orb_true_iff. left. apply prefix_spec. by exists post.
    + apply orb_true_iff. right. exact IH.
Qed.

Lemma lower_ascii_idem (c : ascii) : lower_ascii (lower_ascii c) = lower_ascii c.
Proof. destruct c as [[] [] [] [] [] [] [] []]; reflexivity. Qed.

Lemma toLowerCase_idem (s : string) : toLowerCase (toLowerCase s) = toLowerCase s.
Proof. induction s as [|c s IH]; simpl; [done|]. by rewrite lower_ascii_idem, IH. Qed.

(** X10: the default matcher accepts exactly when the lower-cased text of
    the term occurs somewhere in the lower-cased text of the value; so it
    does not tell a string from its lower-cased form, on either side, and
    it accepts every value for the empty term. *)
Theorem defaultMatcher_substring (h : heap) (v term : value) :
  (defaultMatcher h v term = true ↔
     ∃ pre post, toLowerCase (ToString h v)
                 = pre +:+ toLowerCase (ToString h term) +:+ post)
  ∧ defaultMatcher h v (VString "") = true
  ∧ (∀ s t, defaultMatcher h (VString (toLowerCase s)) (VString (toLowerCase t))
            = defaultMatcher h (VString s) (VString t)).
Proof.
  split; [apply includes_spec|]. split.
  - apply includes_spec. by exists "", (toLowerCase (ToString h v)).
  - intros s t. unfold defaultMatcher, ToString. simpl.
    by rewrite !toLowerCase_idem.
Qed.

(** The cases of the repository's matcher tests. *)
Example defaultMatcher_cases :
  defaultMatcher ∅ (VString "Hello World") (VString "world") = true
  ∧ defaultMatcher ∅ (VString "Hello World") (VString "HELLO") = true
  ∧ defaultMatcher ∅ (VString "Hello World") (VString "xyz") = false
  ∧ defaultMatcher ∅ (VNumber 123) (VString "23") = true
  ∧ defaultMatcher ∅ (VBool true) (VString "true") = true
  ∧ defaultMatcher ∅ VNull (VString "null") = true
  ∧ exactMatcher (VNumber 123) (VNumber 123) = true
  ∧ exactMatcher (VString "123") (VNumber 123) = false
  ∧ exactMatcher VNull VNull = true
  ∧ exactMatcher VUndefined VNull = false.
Proof. vm_compute. repeat split. Qed.

(** ** Plain dotted paths *)

Section PlainPaths.
Context (h : heap).

Lemma descend_loops (segments : list string) (v w : value) :
  descend h segments v = Some w →
  getNestedValue_loop h segments (Held v) = Return (inr (Held w))
  ∧ getValueByPath_loop h segments (Held v) = Return (Held w).
Proof.
  revert v. induction segments as [|segment rest IH]; intros v; simpl.
  - by intros [= ->].
  - destruct (endsWith segment "[]"); [done|].
    destruct (get h v segment) as [u|e]; simpl; [|done].
    case_bool_decide; [done|].
    destruct (array_at h u); [done|]. apply IH.
Qed.

Lemma descend_end (segments : list string) (v w : value) :
  descend h segments v = Some w → segments ≠ [] →
  w ≠ VUndefined ∧ array_at h w = None.
Proof.
  revert v. induction segments as [|segment rest IH]; intros v; simpl; [done|].
  destruct (endsWith segment "[]"); [done|].
  destruct (get h v segment) as [u|e]; [|done].
  case_bool_decide as Hu; [done|].
  destruct (array_at h u) eqn:Ha; [done|].
  intros Hd _. destruct rest as [|s rest].
  - simpl in Hd. by injection Hd as <-.
  - by apply (IH u).
Qed.

Lemma split_nonempty (s : string) : split "." s ≠ [].
Proof. intros E. pose proof (split_length s) as Hl. by rewrite E in Hl. Qed.

Lemma descend_resolved (obj w : value) (path : string) (depth : Z) :
  descend h (split "." path) obj = Some w →
  getNestedValue h obj path depth = [w]
  ∧ getValueByPath h obj path = Held w
  ∧ array_at h w = None.
Proof.
  intros Hd.
  destruct (descend_loops _ _ _ Hd) as [Hn Hv].
  destruct (descend_end _ _ _ Hd (split_nonempty path)) as [Hw Ha].
  split; [|split; [|exact Ha]].
  - unfold getNestedValue, getNestedValue_try. rewrite Hn. simpl. rewrite Ha. simpl.
    by rewrite bool_decide_eq_false_2.
  - unfold getValueByPath, getValueByPath_try. by rewrite Hv.
Qed.

(** X11: on a path of plain segments that leads through objects to a defined
    value that is not an array, the two resolvers agree: [getNestedValue]
    returns exactly that value, [getValueByPath] returns it too, and so the
    values offered to the matcher are the same with a cold cache, a warm
    cache and no cache. *)
Theorem resolvers_agree_on_plain_path (obj w : value) (path : string)
    (depth : Z) (cache : pathCache) :
  descend h (split "." path) obj = Some w →
  getNestedValue h obj path depth = [w]
  ∧ getValueByPath h obj path = Held w
  ∧ fst (path_values h obj path depth true (<[path := [path]]> cache)) = [w]
  ∧ fst (path_values h obj path depth true (delete path cache)) = [w]
  ∧ fst (path_values h obj path depth false cache) = [w].
Proof.
  intros Hd. destruct (descend_resolved obj w path depth Hd) as (HN & HV & Ha).
  split; [exact HN|]. split; [exact HV|]. unfold path_values.
  rewrite lookup_insert_eq, lookup_delete_eq. simpl. by rewrite HV, Ha, HN.
Qed.

Lemma split_cons (key rest : string) :
  dots key = O → split "." (key +:+ "." +:+ rest) = key :: split "." rest.
Proof.
  unfold dots. induction key as [|c key IH]; [done|].
  cbn [String.list_ascii_of_string List.filter].
  change (String c key +:+ "." +:+ rest) with (String c (key +:+ "." +:+ rest)).
  cbn [split].
  destruct (Ascii.eqb c "."); cbn [length]; [discriminate|].
  intros Hd. by rewrite (IH Hd).
Qed.

(** X12: a leading plain segment that names a defined property holding
    something other than an array is consumed by descending: resolving
    [key.rest] from the object is resolving [rest] from that property's
    value, whatever [rest] contains. *)
Theorem getNestedValue_descends (obj u : value) (key rest : string) (depth : Z) :
  dots key = O →
  endsWith key "[]" = false →
  get h obj key = Return u →
  u ≠ VUndefined →
  array_at h u = None →
  getNestedValue h obj (key +:+ "." +:+ rest) depth = getNestedValue h u rest depth.
Proof.
  intros Hdots Hplain Hget Hu Ha.
  unfold getNestedValue, getNestedValue_try.
  rewrite (split_cons key rest Hdots). simpl.
  rewrite Hplain. simpl. rewrite Hget. simpl.
  rewrite bool_decide_eq_false_2 by done. by rewrite Ha.
Qed.

End PlainPaths.

Lemma resolvers_agree_on_plain_path_witness :
  descend profile (split "." "user.address.city") (VRef 0) = Some (VString "Oslo")
  ∧ getNestedValue profile (VRef 0) "user.address.city" 10 = [VString "Oslo"].
Proof.
  assert (descend profile (split "." "user.address.city") (VRef 0) = Some (VString "Oslo"))
    as Hd by (vm_compute; reflexivity).
  split; [exact Hd|].
  exact (proj1 (resolvers_agree_on_plain_path profile (VRef 0) (VString "Oslo")
                  "user.address.city" 10 ∅ Hd)).
Defined.

Lemma getNestedValue_descends_witness :
  get profile (VRef 0) "user" = Return (VRef 1)
  ∧ getNestedValue profile (VRef 0) ("user" +:+ "." +:+ "address.city") 10
    = getNestedValue profile (VRef 1) "address.city" 10.
Proof.
  split; [reflexivity|].
  apply (getNestedValue_descends profile (VRef 0) (VRef 1) "user" "address.city" 10).
  - reflexivity.
  - reflexivity.
  - reflexivity.
  - discriminate.
  - reflexivity.
Defined.

(** ** The marker on the last segment *)

Lemma substring_drop (n m : nat) (k s : string) :
  n = String.length k → String.substring n m (k +:+ s) = String.substring 0 m s.
Proof.
  intros ->. induction k as [|c k IH]; [done|].
  change (String c k +:+ s) with (String c (k +:+ s)). simpl String.length.
  cbn [String.substring]. exact IH.
Qed.

Lemma substring_take (n : nat) (k s : string) :
  n = String.length k → String.substring 0 n (k +:+ s) = k.
Proof.
  intros ->. induction k as [|c k IH].
  - simpl. by destruct s.
  - change (String c k +:+ s) with (String c (k +:+ s)). simpl String.length.
    cbn [String.substring]. by rewrite IH.
Qed.

Lemma length_append (k s : string) :
  String.length (k +:+ s) = (String.length k + String.length s)%nat.
Proof.
  induction k as [|c k IH]; [done|].
  change (String c k +:+ s) with (String c (k +:+ s)). simpl. by rewrite IH.
Qed.

Lemma marker_endsWith (key : string) : endsWith (key +:+ "[]") "[]" = true.
Proof.
  unfold endsWith. rewrite length_append. simpl String.length.
  replace (String.length key + 2 - 2)%nat with (String.length key) by lia.
  rewrite substring_drop by done.
  apply andb_true_iff. split; [apply Nat.leb_le; lia | reflexivity].
Qed.

Lemma marker_key (key : string) : slice_0_neg2 (key +:+ "[]") = key.
Proof.
  unfold slice_0_neg2. rewrite length_append. simpl String.length.
  replace (String.length key + 2 - 2)%nat with (String.length key) by lia.
  by apply substring_take.
Qed.

Lemma marker_dots (key : string) : dots (key +:+ "[]") = dots key.
Proof.
  unfold dots. induction key as [|c key IH]; [done|].
  change (String c key +:+ "[]") with (String c (key +:+ "[]")).
  cbn [String.list_ascii_of_string List.filter].
  destruct (Ascii.eqb c "."); cbn [length]; by rewrite IH.
Qed.

Lemma flat_levels_flat_array (h : heap) (d : nat) (es : list value) :
  Forall (fun e => array_at h e = None) es → flat_levels h d es = es.
Proof.
  induction 1 as [|e es He _ IH]; [by destruct d|].
  assert (flat_levels h d (e :: es) = e :: flat_levels h d es) as ->
    by (destruct d; simpl; [done | by rewrite He]).
  by rewrite IH.
Qed.

Lemma filter_defined (es : list value) :
  Forall (fun e => e ≠ VUndefined) es →
  List.filter (fun v => negb (bool_decide (v = VUndefined))) es = es.
Proof.
  induction 1 as [|e es He _ IH]; simpl; [done|].
  by rewrite bool_decide_eq_false_2, IH.
Qed.

(** X13: for a property of an object that holds an array of defined values,
    none of them an array, the key with the marker and the key without it
    resolve, without the cache, to the same values: the elements, in order,
    at every depth budget. *)
Theorem getNestedValue_marker_on_array (h : heap) (obj u : value) (key : string)
    (es : list value) (depth : Z) :
  dots key = O →
  endsWith key "[]" = false →
  array_at h obj = None →
  get h obj key = Return u →
  array_at h u = Some es →
  Forall (fun e => e ≠ VUndefined ∧ array_at h e = None) es →
  getNestedValue h obj (key +:+ "[]") depth = es
  ∧ getNestedValue h obj key depth = es.
Proof.
  intros Hdots Hplain Hobj Hget Hu Hes.
  assert (Forall (fun e => array_at h e = None) es) as Hflat
    by (eapply Forall_impl; [exact Hes | by intros ? [_ ?]]).
  assert (Forall (fun e => e ≠ VUndefined) es) as Hdef
    by (eapply Forall_impl; [exact Hes | by intros ? [? _]]).
  assert (u ≠ VUndefined) as Hne by (intros ->; discriminate).
  unfold getNestedValue, getNestedValue_try. split.
  - rewrite split_no_dots by (by rewrite marker_dots).
    simpl. rewrite marker_endsWith, marker_key. simpl. rewrite Hobj. simpl.
    rewrite Hget. simpl. rewrite Hu. simpl. rewrite Hu. simpl.
    unfold flat. rewrite flat_levels_flat_array by done. by apply filter_defined.
  - rewrite split_no_dots by done.
    simpl. rewrite Hplain. simpl. rewrite Hget. simpl.
    rewrite bool_decide_eq_false_2 by done. rewrite Hu. simpl.
    unfold flat. rewrite (flat_levels_flat_array h _ es) by done.
    rewrite (flat_levels_flat_array h _ es) by done. by apply filter_defined.
Qed.

Lemma getNestedValue_marker_on_array_witness :
  getNestedValue tagged (VRef 0) ("tags" +:+ "[]") 10 = [VString "a"]
  ∧ getNestedValue tagged (VRef 0) "tags" 10 = [VString "a"].
Proof.
  apply (getNestedValue_marker_on_array tagged (VRef 0) (VRef 2) "tags" [VString "a"] 10).
  - reflexivity.
  - reflexivity.
  - reflexivity.
  - reflexivity.
  - reflexivity.
  - repeat constructor; discriminate.
Defined.

(** ** Raising the depth budget *)

Lemma flatten_clamp (h : heap) (v : value) (depth : Z) :
  flatten h v depth = flatten h v (Z.of_nat (Z.to_nat depth)).
Proof.
  destruct (Z.le_gt_cases 0 depth) as [Hd|Hd]; [by rewrite Z2Nat.id|].
  replace (Z.to_nat depth) with O by lia. change (Z.of_nat 0) with 0.
  rewrite flatten_zero, flatten_unfold.
  by rewrite (proj2 (Z.leb_le depth 0)) by lia.
Qed.

Lemma flatten_primitive_mono (h : heap) (v w : value) (d d' : Z) :
  d <= d' → isFlattenable w = false →
  In w (flatten h v d) → In w (flatten h v d').
Proof.
  intros Hle Hw. rewrite (flatten_clamp h v d), (flatten_clamp h v d').
  rewrite !flatten_leaves. intros (n & Hn & Hs & _).
  exists n. split; [lia|]. split; [done | by right].
Qed.

(** X14: a global search with a matcher that accepts no object or array as
    such only gains items when [maxDepth] is raised: every primitive value
    kept as a leaf under the smaller budget is still a leaf under the
    larger one. *)
Theorem searchData_deeper_budget (h : heap) (data : list value) (term : value)
    (o : SearchOptions) (d d' : Z) (cache : pathCache) :
  keys o = None →
  (∀ l, default (defaultMatcher h) (customMatch o) (VRef l) term = false) →
  d <= d' →
  sublist (await (fst (searchData h data term (set_maxDepth d o) cache)))
          (await (fst (searchData h data term (set_maxDepth d' o) cache))).
Proof.
  intros Hkeys Hobj Hle.
  rewrite (cache_free_result h data term (set_maxDepth d o) cache (or_introl Hkeys)).
  rewrite (cache_free_result h data term (set_maxDepth d' o) cache (or_introl Hkeys)).
  apply filter_sublist_impl. intros item. unfold pure_match. simpl. rewrite Hkeys.
  destruct (negb (isFlattenable item)); [done|].
  rewrite !existsb_exists. intros (w & Hw & Hm). exists w. split; [|done].
  unfold flattenObject in *. rewrite in_flat_map in *.
  destruct Hw as (u & Hu & Hw). exists u. split; [done|].
  apply (flatten_primitive_mono h u w d d' Hle); [|done].
  destruct w; try done. by rewrite Hobj in Hm.
Qed.

Lemma searchData_deeper_budget_witness :
  sublist
    (await (fst (searchData nested3 [VRef 0] (VString "needle")
                   (set_maxDepth 1 (set_customMatch exactMatcher no_options)) ∅)))
    (await (fst (searchData nested3 [VRef 0] (VString "needle")
                   (set_maxDepth 2 (set_customMatch exactMatcher no_options)) ∅))).
Proof.
  apply (searchData_deeper_budget nested3 [VRef 0] (VString "needle")
           (set_customMatch exactMatcher no_options) 1 2 ∅).
  - reflexivity.
  - intros l. reflexivity.
  - lia.
Defined.

(** Without that proviso the budget can lose an item: the default matcher
    reads a truncated object as "[object Object]". *)
Example deeper_budget_can_lose :
  fst (searchData nested3 [VRef 1] (VString "object") (depth_option 0) ∅) = Plain [VRef 1]
  ∧ fst (searchData nested3 [VRef 1] (VString "object") (depth_option 1) ∅) = Plain [].
Proof. split; vm_compute; reflexivity. Qed.

(** ** Chunk sizes *)

Lemma ceil_div_last (n cs : nat) :
  (0 < n)%nat → (0 < cs)%nat → ((ceil_div n cs - 1) * cs < n)%nat.
Proof.
  intros Hn Hcs. unfold ceil_div.
  pose proof (Nat.div_mod_eq (n + cs - 1) cs) as E.
  pose proof (Nat.mod_upper_bound (n + cs - 1) cs) as B.
  nia.
Qed.

(** X15: the chunks of a non-empty collection are never empty and none is
    longer than a quarter of the collection rounded up; all but the last
    have exactly that length. *)
Theorem make_chunks_sizes (data : list value) :
  data ≠ [] →
  let chunkSize := ceil_div (length data) 4 in
  Forall (fun chunk => chunk ≠ [] ∧ (length chunk ≤ chunkSize)%nat) (make_chunks data)
  ∧ ∀ i chunk, make_chunks data !! i = Some chunk →
               (S i < length (make_chunks data))%nat → length chunk = chunkSize.
Proof.
  intros Hne chunkSize.
  assert (0 < length data)%nat as Hn by (destruct data; [done | simpl; lia]).
  pose proof (ceil_div_pos (length data) 4 Hn ltac:(lia)) as Hcs.
  fold chunkSize in Hcs.
  pose proof (ceil_div_last (length data) chunkSize Hn Hcs) as Hlast.
  assert (∀ i, slice (i * chunkSize) ((i + 1) * chunkSize) data
               = firstn chunkSize (skipn (i * chunkSize) data)) as Hslice.
  { intros i. unfold slice. f_equal. lia. }
  unfold make_chunks. fold chunkSize. split.
  - apply List.Forall_forall. intros chunk (i & <- & Hi%in_seq)%in_map_iff.
    rewrite Hslice. split.
    + intros Hnil%(f_equal length). rewrite length_take, length_drop in Hnil.
      simpl in Hnil. nia.
    + rewrite length_take. lia.
  - intros i chunk Hi Hnext. rewrite length_map, length_seq in Hnext.
    rewrite list_lookup_fmap in Hi.
    destruct (seq 0 (ceil_div (length data) chunkSize) !! i) as [j|] eqn:Hj; [|done].
    apply lookup_seq in Hj as [-> _]. simpl in Hi. injection Hi as <-.
    rewrite Hslice, length_take, length_drop. nia.
Qed.

Lemma make_chunks_sizes_witness :
  let data := map VNumber [1; 2; 3; 4; 5; 6; 7; 8; 9; 10] in
  data ≠ [] ∧
  Forall (fun chunk => chunk ≠ [] ∧ (length chunk ≤ 3)%nat) (make_chunks data).
Proof.
  intros data.
  assert (data ≠ []) as Hne by discriminate.
  split; [exact Hne|].
  exact (proj1 (make_chunks_sizes data Hne)).
Defined.

(** Ten items are cut into chunks of 3, 3, 3 and 1. *)
Example make_chunks_ten :
  map length (make_chunks (map VNumber [1; 2; 3; 4; 5; 6; 7; 8; 9; 10]))
  = [3; 3; 3; 1]%nat.
Proof. reflexivity. Qed.

(** ** The path parser *)

Lemma append_nil_r (s : string) : s +:+ "" = s.
Proof.
  induction s as [|c s IH]; [done|].
  change (String c s +:+ "") with (String c (s +:+ "")). by rewrite IH.
Qed.

Lemma append_assoc (a b c : string) : (a +:+ b) +:+ c = a +:+ (b +:+ c).
Proof.
  induction a as [|x a IH]; [done|].
  change ((String x a +:+ b) +:+ c) with (String x ((a +:+ b) +:+ c)).
  change (String x a +:+ b +:+ c) with (String x (a +:+ b +:+ c)).
  by rewrite IH.
Qed.

Lemma rev_app_spec (a b : string) : String.rev_app a b = String.rev a +:+ b.
Proof.
  revert b. induction a as [|c a IH]; intros b; [done|].
  unfold String.rev. cbn [String.rev_app].
  rewrite (IH (String c b)), (IH (String c "")), append_assoc. done.
Qed.

Lemma rev_append (a b : string) : String.rev (a +:+ b) = String.rev b +:+ String.rev a.
Proof.
  induction a as [|c a IH].
  - by rewrite append_nil_r.
  - change (String c a +:+ b) with (String c (a +:+ b)).
    unfold String.rev at 1 3. cbn [String.rev_app].
    rewrite !rev_app_spec, IH, append_assoc. done.
Qed.

Lemma rev_involutive (s : string) : String.rev (String.rev s) = s.
Proof.
  induction s as [|c s IH]; [done|].
  unfold String.rev at 2. cbn [String.rev_app].
  rewrite rev_app_spec, rev_append, IH. done.
Qed.

Lemma trim_start_head (s : string) :
  match trim_start s with
  | EmptyString => True
  | String c _ => is_space c = false
  end.
Proof.
  induction s as [|c s IH]; simpl; [done|].
  destruct (is_space c) eqn:E; [exact IH | exact E].
Qed.

Lemma trim_start_fixed (c : ascii) (s : string) :
  is_space c = false → trim_start (String c s) = String c s.
Proof. intros E. simpl. by rewrite E. Qed.

Lemma trim_start_idem (s : string) : trim_start (trim_start s) = trim_start s.
Proof.
  pose proof (trim_start_head s) as Hh.
  destruct (trim_start s) as [|c r]; [done | by apply trim_start_fixed].
Qed.

Lemma trim_start_suffix (s : string) : ∃ ws, s = ws +:+ trim_start s.
Proof.
  induction s as [|c s [ws IH]]; [by exists ""|]. simpl.
  destruct (is_space c); [|by exists ""].
  exists (String c ws). change (String c ws +:+ trim_start s)
    with (String c (ws +:+ trim_start s)). by rewrite <- IH.
Qed.

Lemma trim_idem (s : string) : trim (trim s) = trim s.
Proof.
  unfold trim.
  set (A := trim_start s). set (B := trim_start (String.rev A)).
  assert (trim_start (String.rev B) = String.rev B) as Hclean.
  { destruct (trim_start_suffix (String.rev A)) as [ws Hws]. fold B in Hws.
    apply (f_equal String.rev) in Hws. rewrite rev_involutive, rev_append in Hws.
    pose proof (trim_start_head s) as Hh. fold A in Hh.
    destruct (String.rev B) as [|c r]; [done|].
    rewrite Hws in Hh. by apply trim_start_fixed. }
  rewrite Hclean, rev_involutive. subst B. by rewrite trim_start_idem.
Qed.

(** X16: [parsePath] yields at most as many segments as the dots of the path
    allow, none of them empty and none with blanks at either end; on a path
    whose dot-separated pieces are already like that it yields those pieces. *)
Theorem parsePath_segments (path : string) :
  (length (parsePath path) ≤ S (dots path))%nat
  ∧ (∀ s, In s (parsePath path) → s ≠ "" ∧ trim s = s)
  ∧ (Forall (fun s => s ≠ "" ∧ trim s = s) (split "." path) →
     parsePath path = split "." path).
Proof.
  unfold parsePath. split; [|split].
  - rewrite <- split_length, <- (length_map trim (split "." path)).
    apply filter_length_le.
  - intros s [Hin Hne]%filter_In.
    apply in_map_iff in Hin as (x & <- & _). split.
    + intros E. by rewrite E in Hne.
    + apply trim_idem.
  - induction 1 as [|s l [Hne Htrim] _ IH]; simpl; [done|].
    rewrite Htrim. destruct (String.eqb s "") eqn:E.
    + by apply String.eqb_eq in E.
    + simpl. by rewrite IH.
Qed.

(** Blank and empty pieces disappear, inner blanks stay. *)
Example parsePath_cases :
  parsePath " user . first name ..city." = ["user"; "first name"; "city"]
  ∧ parsePath "" = []
  ∧ parsePath "orders[].item" = ["orders[]"; "item"].
Proof. vm_compute. repeat split. Qed.

(** ** When the cache is harmless *)

Lemma path_values_plain (h : heap) (item w : value) (path : string) (depth : Z)
    (flag : bool) (cache : pathCache) :
  cache_ok cache →
  descend h (split "." path) item = Some w →
  fst (path_values h item path depth flag cache) = [w].
Proof.
  intros Hok Hd.
  destruct (descend_resolved h item w path depth Hd) as (HN & HV & Ha).
  unfold path_values. destruct flag; [|done].
  destruct (cache !! path) as [segs|] eqn:Hc; [|done].
  rewrite (Hok path segs Hc). simpl. by rewrite HV, Ha.
Qed.

Lemma some_path_plain (h : heap) (item term : value) (ks : list string)
    (m : MatchFunction) (depth : Z) (flag : bool) (cache : pathCache) :
  cache_ok cache →
  (∀ path, In path ks → is_Some (descend h (split "." path) item)) →
  fst (some_path h item term ks m depth flag cache)
  = existsb (fun path => existsb (fun v => m v term) (getNestedValue h item path depth)) ks.
Proof.
  revert cache. induction ks as [|path ks IH]; intros cache Hok Hks; simpl; [done|].
  destruct (Hks path (or_introl eq_refl)) as [w Hw].
  pose proof (path_values_plain h item w path depth flag cache Hok Hw) as Hv.
  pose proof (path_values_grows h item path depth flag cache) as [_ Hok'].
  destruct (path_values h item path depth flag cache) as [values cache']. simpl in *.
  destruct (descend_resolved h item w path depth Hw) as (-> & _).
  subst values. destruct (existsb _ [w]); [done|].
  apply IH; [by apply Hok' | intros p Hp; apply Hks; by right].
Qed.

(** X17: when every key is a plain dotted path that leads, in every object
    item, through objects to a defined value that is not an array, the
    cache is harmless: from any cache built by earlier searches, and with
    the cache on or off, the result is that of the cache-free filter. *)
Theorem searchData_cache_harmless (h : heap) (data : list value) (term : value)
    (o : SearchOptions) (cache : pathCache) :
  cache_ok cache →
  (∀ item path, In item data → isFlattenable item = true →
                In path (default [] (keys o)) →
                is_Some (descend h (split "." path) item)) →
  await (fst (searchData h data term o cache)) = List.filter (pure_match h term o) data.
Proof.
  intros Hok Hplain.
  pose proof (searchData_filter h data term o cache) as E.
  apply (f_equal fst) in E. simpl in E. rewrite E. clear E.
  revert cache Hok. induction data as [|item data IH]; intros cache Hok; simpl; [done|].
  assert (fst (item_pred h term o item cache) = pure_match h term o item) as Hitem.
  { unfold item_pred, pure_match, matchItem.
    destruct (isFlattenable item) eqn:Hobj; simpl; [|done].
    destruct (keys o) as [[|path ks]|] eqn:Hk; try done.
    apply some_path_plain; [done|].
    intros p Hp. apply (Hplain item p); [by left | done | done]. }
  pose proof (matchItem_grows h item term (keys o)
                (default (defaultMatcher h) (customMatch o))
                (default DEFAULT_MAX_DEPTH (maxDepth o))
                (default true (enablePathCache o)) cache) as [_ Hok'].
  fold (item_pred h term o item cache) in Hok'.
  destruct (item_pred h term o item cache) as [keep cache1]. simpl in Hitem, Hok'.
  specialize (IH (fun x p Hx => Hplain x p (or_intror Hx)) cache1 (Hok' Hok)).
  destruct (filter_with (item_pred h term o) data cache1) as [kept cache2].
  simpl in *. subst keep. by rewrite IH.
Qed.

Lemma searchData_cache_harmless_witness :
  let o := keys_option ["user.address.city"; "user.address"] true in
  await (fst (searchData profile [VRef 0; VString "Oslo"; VRef 0] (VString "oslo") o ∅))
  = List.filter (pure_match profile (VString "oslo") o) [VRef 0; VString "Oslo"; VRef 0].
Proof.
  intros o.
  apply (searchData_cache_harmless profile _ (VString "oslo") o ∅).
  - intros p segs. rewrite lookup_empty. discriminate.
  - intros item path Hitem Hobj Hpath.
    assert (item = VRef 0) as ->.
    { simpl in Hitem. destruct Hitem as [<-|[<-|[<-|[]]]]; [done | discriminate | done]. }
    simpl in Hpath. destruct Hpath as [<-|[<-|[]]]; vm_compute; eauto.
Defined.

(** ** Strict search *)

Lemma existsb_strict_eq (term : value) (l : list value) :
  existsb (fun v => exactMatcher v term) l = true ↔ In term l.
Proof.
  rewrite existsb_exists. unfold exactMatcher, strict_eq. split.
  - intros (v & Hv & ->%bool_decide_eq_true). exact Hv.
  - intros Hin. exists term. split; [exact Hin | by apply bool_decide_eq_true].
Qed.

(** X18: a global search with [exactMatcher] keeps an object item exactly
    when the term itself is among its flattened leaves, and an item that is
    not an object exactly when it is the term. *)
Theorem searchData_exact_global (h : heap) (data : list value) (item term : value)
    (o : SearchOptions) (cache : pathCache) :
  keys o = None →
  (In item (await (fst (searchData h data term (set_customMatch exactMatcher o) cache)))
   ↔ In item data ∧
     if isFlattenable item
     then In term (flattenObject h item (default DEFAULT_MAX_DEPTH (maxDepth o)))
     else item = term).
Proof.
  intros Hkeys.
  rewrite (cache_free_result h data term (set_customMatch exactMatcher o) cache
             (or_introl Hkeys)).
  rewrite filter_In. unfold pure_match. simpl. rewrite Hkeys.
  destruct (isFlattenable item); simpl.
  - by rewrite existsb_strict_eq.
  - unfold exactMatcher, strict_eq. by rewrite bool_decide_eq_true.
Qed.

Lemma searchData_exact_global_witness :
  let h : heap := {[ 0%nat := Obj [("count", VNumber 100)];
                     1%nat := Obj [("count", VString "100")] ]} in
  In (VRef 0) (await (fst (searchData h [VRef 0; VRef 1] (VNumber 100)
                             (set_customMatch exactMatcher no_options) ∅)))
  ∧ ¬ In (VRef 1) (await (fst (searchData h [VRef 0; VRef 1] (VNumber 100)
                                 (set_customMatch exactMatcher no_options) ∅))).
Proof.
  intros h. split.
  - apply (searchData_exact_global h [VRef 0; VRef 1] (VRef 0) (VNumber 100)
             no_options ∅ eq_refl).
    split; [by left|]. vm_compute. by left.
  - intros Hin.
    apply (searchData_exact_global h [VRef 0; VRef 1] (VRef 1) (VNumber 100)
             no_options ∅ eq_refl) in Hin as [_ Hin].
    vm_compute in Hin. destruct Hin as [Hin|[]]. discriminate.
Defined.

(** ** Empty key lists *)

